(** * nav2_route: route planner and edge scorers

    A shallow embedding of
    - [nav2_route/src/route_planner.cpp] (the bounded Dijkstra search with
      lazy deletion, the edge pricing and the backtracking of [findRoute]),
    - [AdjustEdgesScorer] (closed edges and dynamic penalties) and
    - [CostmapScorer] (line sampling of a costmap),
    followed by the properties of the routing specification and by further
    properties of the three components.

    Conventions of the embedding.
    - A C++ [float] is read as the rational number it denotes ([Q]); the
      costs handed to the planner are finite numbers.  The one arithmetic
      operation of the planner, the sum of two floats, is rounded to
      single precision and overflows to +infinity ([Float32.add]).
      Comparisons of floats are exact; they become [Qeq_bool], [Qle_bool]
      and the strict order derived from them.  The quotients of the
      costmap scorer are exact rationals.
    - A [NodePtr] is the index of the node in the graph vector; an [EdgePtr]
      is the edge itself (edges are never mutated by the planner).
    - The search state the C++ code keeps inside every node is kept in a
      vector of its own, indexed like the graph.
    - [unsigned int] identifiers are natural numbers; no arithmetic is done
      on them. *)

From Stdlib Require Import QArith Qround Qabs Qpower Lqa ZArith Lia.
From stdpp Require Import base list gmap sets.

#[local] Set Warnings "-clear-no-such-hyp".
Local Open Scope Q_scope.
Local Open Scope nat_scope.

(** ** Types ([nav2_route/types.hpp], as far as the sources use them) *)

Module Types.

(** A cost that may still be "not reached". *)
Inductive ecost : Type :=
| Finite (c : Q)
| Infinite.

Record EdgeCost : Type := mkEdgeCost {
  cost : Q;
  overridable : bool
}.

Abbreviation NodePtr := nat.

Record DirectionalEdge : Type := mkEdge {
  edgeid : nat;
  start : NodePtr;
  end_ : NodePtr;
  edge_cost : EdgeCost
}.

Abbreviation EdgePtr := (option DirectionalEdge).

Record Coordinates : Type := mkCoords { x : Q; y : Q }.

Record Node : Type := mkNode {
  nodeid : nat;
  coords : Coordinates;
  neighbors : list DirectionalEdge
}.

Abbreviation Graph := (list Node).

Record SearchState : Type := mkSearchState {
  parent_edge : EdgePtr;
  integrated_cost : ecost;
  traversal_cost : ecost
}.

(** Modelled from the spec: [SearchState::reset] is declared in types.hpp,
    which is not among the sources.  The specification initialises
    [integrated_cost] to +infinity and [parent_edge] to "none"; the reset
    value of [traversal_cost], which the planner writes and never reads, is
    taken to be the same "not yet set" value. *)
Definition reset : SearchState :=
  {| parent_edge := None; integrated_cost := Infinite; traversal_cost := Infinite |}.

Record Route : Type := mkRoute {
  start_node : NodePtr;
  edges : list DirectionalEdge;
  route_cost : ecost
}.

Abbreviation NodeElement := (Q * NodePtr)%type.

(** Modelled from the spec: the schedule is a [std::priority_queue] whose
    comparator lives in a header that is not among the sources.  The
    specification orders it by ascending cost and leaves ties to the
    container; here it is a list, [emplace] conses and [top]/[pop] take out
    the first element of least cost. *)
Abbreviation NodeQueue := (list NodeElement).

#[global] Instance Node_inhabited : Inhabited Node :=
  populate {| nodeid := 0; coords := {| x := 0%Q; y := 0%Q |}; neighbors := [] |}.
#[global] Instance SearchState_inhabited : Inhabited SearchState := populate reset.

End Types.
Export Types.

(** Strict order and equality of costs as booleans. *)
Definition Qlt_bool (a b : Q) : bool := negb (Qle_bool b a).

Definition ecost_lt (p : Q) (c : ecost) : bool :=
  match c with
  | Finite d => Qlt_bool p d
  | Infinite => true
  end.

Definition ecost_neq (p : Q) (c : ecost) : bool :=
  match c with
  | Finite d => negb (Qeq_bool p d)
  | Infinite => true
  end.

(** ** Single precision ([float]) *)

Module Float32.

(** [floor (log2 q)] of a positive [q]. *)
Definition ilog2 (q : Q) : Z :=
  let e := (Z.log2 (Qnum q) - Z.log2 (Zpos (Qden q)))%Z in
  if Qle_bool (2 ^ e) q then e else (e - 1)%Z.

(** The nearest integer, a tie going to the even one. *)
Definition round_half_even (q : Q) : Z :=
  let f := Qfloor q in
  match Qcompare (q - inject_Z f) (1 # 2) with
  | Lt => f
  | Gt => (f + 1)%Z
  | Eq => if Z.even f then f else (f + 1)%Z
  end.

(** Rounding to the nearest number of single precision, ties to even: a
    significand of 24 bits, an exponent of at least -126 (below it the
    numbers are evenly spaced), and no largest exponent. *)
Definition round (q : Q) : Q :=
  let q := Qred q in
  if Qeq_bool q 0 then 0%Q
  else
    let e := Z.max (ilog2 (Qabs q)) (-126) in
    let ulp := (2 ^ (e - 23))%Q in
    Qred (inject_Z (round_half_even (q / ulp)) * ulp).

(** [a + b] on two [float]s: the exact sum, rounded; a sum that rounds to
    [2 ^ 128] or more is +infinity.  (A sum that rounds to [- 2 ^ 128] or
    less, which takes costs below -1.7e38 and is -infinity in the code, is
    kept as the rounded number.) *)
Definition add (a b : Q) : ecost :=
  let r := round (a + b) in
  if Qle_bool (2 ^ 128) r then Infinite else Finite r.

End Float32.

(** ** The exceptions the planner raises *)

Inductive error : Type :=
| NoValidGraph
| NoValidRouteCouldBeFound
| TimedOut
| OutOfRange.

Abbreviation result A := (error + A)%type.

(** ** RoutePlanner ([route_planner.cpp]) *)

Module RoutePlanner.

(** [EdgeScorer] is an object of the repository whose [score] is defined in
    a file that is not among the sources: the planner takes it as it is
    handed over, a plugin count and a scoring function of the edge and of
    the value the caller's [float &] holds at the call. *)
Record EdgeScorer : Type := mkEdgeScorer {
  numPlugins : Z;
  score : DirectionalEdge -> Q -> bool * Q
}.

Record Planner : Type := mkPlanner {
  max_iterations_ : Z;
  edge_scorer_ : EdgeScorer
}.

Definition INT_MAX : Z := 2147483647.

(** The parameter is an [int64_t] stored into an [int]. *)
Definition to_int (z : Z) : Z := ((z + 2 ^ 31) mod 2 ^ 32 - 2 ^ 31)%Z.

Definition configure (max_iterations : Z) (scorer : EdgeScorer) : Planner :=
  let m := to_int max_iterations in
  {| max_iterations_ := if (m =? 0)%Z then INT_MAX else m;
     edge_scorer_ := scorer |}.

Definition isGoal (goal_id_ : nat) (node : Node) : bool :=
  nodeid node =? goal_id_.

Definition idBlocked (g : Graph) (edge : DirectionalEdge) (id : nat) : bool :=
  (id =? edgeid edge) || (id =? nodeid (g !!! end_ edge)).

Definition getTraversalCost (pl : Planner) (g : Graph) (goal_id_ : nat)
    (edge : DirectionalEdge) (score_ : Q) (blocked_ids : list nat)
  : result (bool * Q) :=
  let is_blocked := List.find (idBlocked g edge) blocked_ids in
  if bool_decide (is_blocked <> None) && negb (isGoal goal_id_ (g !!! end_ edge)) then
    inr (false, score_)
  else if negb (overridable (edge_cost edge)) || (numPlugins (edge_scorer_ pl) =? 0)%Z then
    if Qeq_bool (cost (edge_cost edge)) 0 then inl NoValidGraph
    else inr (true, cost (edge_cost edge))
  else inr (score (edge_scorer_ pl) edge score_).

(** [queue_.emplace(cost, node)] *)
Definition addNode (c : Q) (node : NodePtr) (q : NodeQueue) : NodeQueue :=
  (c, node) :: q.

(** [pop_min x l] takes the first element of least cost out of [x :: l]. *)
Fixpoint pop_min (x : NodeElement) (l : NodeQueue) : NodeElement * NodeQueue :=
  match l with
  | [] => (x, [])
  | y :: l' =>
      let '(m, rest) := pop_min y l' in
      if Qle_bool (fst x) (fst m) then (x, l) else (m, x :: rest)
  end.

(** [queue_.top()] followed by [queue_.pop()]; [None] on an empty queue,
    which the loop guard excludes. *)
Definition getNextNode (q : NodeQueue) : option (NodeElement * NodeQueue) :=
  match q with
  | [] => None
  | x :: l => Some (pop_min x l)
  end.

Definition getEdges (g : Graph) (node : NodePtr) : list DirectionalEdge :=
  neighbors (g !!! node).

Definition resetSearchStates (g : Graph) : list SearchState :=
  List.map (fun _ => reset) g.

(** The variables the expansion loop carries from one edge to the next. *)
Record Search : Type := mkSearch {
  states : list SearchState;
  queue_ : NodeQueue;
  traversal_cost_ : Q;   (* the local [float traversal_cost] *)
  iterations : Z
}.

(** The body of the [for] loop over the edges of the expanded node. *)
Fixpoint expand (pl : Planner) (g : Graph) (goal_id_ : nat) (blocked_ids : list nat)
    (curr_cost : Q) (es : list DirectionalEdge) (s : Search) : result Search :=
  match es with
  | [] => inr s
  | edge :: es' =>
      let neighbor := end_ edge in
      match getTraversalCost pl g goal_id_ edge (traversal_cost_ s) blocked_ids with
      | inl err => inl err
      | inr (false, tc) =>
          expand pl g goal_id_ blocked_ids curr_cost es'
            {| states := states s; queue_ := queue_ s;
               traversal_cost_ := tc; iterations := iterations s |}
      | inr (true, tc) =>
          match Float32.add curr_cost tc with
          | Finite potential_cost =>
              if ecost_lt potential_cost (integrated_cost (states s !!! neighbor)) then
                expand pl g goal_id_ blocked_ids curr_cost es'
                  {| states :=
                       <[neighbor :=
                           {| parent_edge := Some edge;
                              integrated_cost := Finite potential_cost;
                              traversal_cost := Finite tc |}]> (states s);
                     queue_ := addNode potential_cost neighbor (queue_ s);
                     traversal_cost_ := tc;
                     iterations := iterations s |}
              else
                expand pl g goal_id_ blocked_ids curr_cost es'
                  {| states := states s; queue_ := queue_ s;
                     traversal_cost_ := tc; iterations := iterations s |}
          | Infinite =>
              (* +infinity is below no cost *)
              expand pl g goal_id_ blocked_ids curr_cost es'
                {| states := states s; queue_ := queue_ s;
                   traversal_cost_ := tc; iterations := iterations s |}
          end
      end
  end.

(** The [while] loop.  Its guard is [!queue_.empty() && iterations <
    max_iterations_]: [getNextNode] answers [None] exactly on the empty
    queue, and the element it takes out is used only when the guard holds.
    [fuel] bounds the number of iterations the model runs; [None] means
    the fuel ran out before the loop was left. *)
Fixpoint search_loop (pl : Planner) (g : Graph) (goal_id_ : nat)
    (blocked_ids : list nat) (fuel : nat) (s : Search) : option (result Search) :=
  match getNextNode (queue_ s) with
  | None => Some (inr s)
  | Some ((curr_cost, node), q') =>
      if negb (iterations s <? max_iterations_ pl)%Z then Some (inr s)
      else
        match fuel with
        | O => None
        | S fuel' =>
            let s1 := {| states := states s; queue_ := q';
                         traversal_cost_ := traversal_cost_ s;
                         iterations := (iterations s + 1)%Z |} in
            if ecost_neq curr_cost (integrated_cost (states s !!! node)) then
              search_loop pl g goal_id_ blocked_ids fuel' s1
            else if isGoal goal_id_ (g !!! node) then Some (inr s1)
            else
              match expand pl g goal_id_ blocked_ids curr_cost (getEdges g node) s1 with
              | inl err => Some (inl err)
              | inr s2 => search_loop pl g goal_id_ blocked_ids fuel' s2
              end
        end
  end.

(** The set-up of the search: every state reset, the start at cost 0 and
    scheduled, the locals initialised. *)
Definition setup (q0 : NodeQueue) (g : Graph) (start_ : NodePtr) : Search :=
  {| states :=
       <[start_ := {| parent_edge := parent_edge reset;
                      integrated_cost := Finite 0;
                      traversal_cost := traversal_cost reset |}]>
         (resetSearchStates g);
     queue_ := addNode 0 start_ q0;
     traversal_cost_ := 0;
     iterations := 0 |}.

(** [findShortestGraphTraversal]; [q0] is what the member [queue_] holds on
    entry.  The result is the search state of every node. *)
Definition findShortestGraphTraversal (pl : Planner) (fuel : nat) (q0 : NodeQueue)
    (g : Graph) (start_ goal : NodePtr) (blocked_ids : list nat)
  : option (result (list SearchState)) :=
  let goal_id_ := nodeid (g !!! goal) in
  match search_loop pl g goal_id_ blocked_ids fuel (setup q0 g start_) with
  | None => None
  | Some (inl err) => Some (inl err)
  | Some (inr s) =>
      if (iterations s >=? max_iterations_ pl)%Z then Some (inl TimedOut)
      else Some (inr (states s))
  end.

(** The backtracking loop of [findRoute].  The C++ variable [parent_edge] is
    a reference to the goal's own [search_state.parent_edge]: the loop
    assigns to that field, and a read of the goal's field inside the loop
    reads the loop variable. *)
Fixpoint backtrack (fuel : nat) (sts : list SearchState) (goal : NodePtr)
    (parent : EdgePtr) (acc : list DirectionalEdge) : option (list DirectionalEdge) :=
  match parent with
  | None => Some acc
  | Some e =>
      match fuel with
      | O => None
      | S fuel' =>
          let next :=
            if start e =? goal then Some e
            else parent_edge (sts !!! start e) in
          backtrack fuel' sts goal next (acc ++ [e])
      end
  end.

Definition findRoute (pl : Planner) (fuel : nat) (q0 : NodeQueue)
    (g : Graph) (start_ goal : NodePtr) (blocked_ids : list nat)
  : option (result Route) :=
  match g with
  | [] => Some (inl NoValidGraph)
  | _ =>
      if negb (start_ <? length g) || negb (goal <? length g) then Some (inl OutOfRange)
      else
        match findShortestGraphTraversal pl fuel q0 g start_ goal blocked_ids with
        | None => None
        | Some (inl err) => Some (inl err)
        | Some (inr sts) =>
            match parent_edge (sts !!! goal) with
            | None => Some (inl NoValidRouteCouldBeFound)
            | Some e =>
                match backtrack fuel sts goal (Some e) [] with
                | None => None
                | Some es =>
                    Some (inr {| start_node := start_;
                                 edges := reverse es;
                                 route_cost := integrated_cost (sts !!! goal) |})
                end
            end
        end
  end.

(** The search as the specification describes it for an unbounded
    configuration, to compare [search_loop] with: the loop is left only
    when the schedule is empty or the goal is popped, and no time-out check
    follows it. *)
Fixpoint unbounded_loop (pl : Planner) (g : Graph) (goal_id_ : nat)
    (blocked_ids : list nat) (fuel : nat) (s : Search) : option (result Search) :=
  match getNextNode (queue_ s) with
  | None => Some (inr s)
  | Some ((curr_cost, node), q') =>
      match fuel with
      | O => None
      | S fuel' =>
          let s1 := {| states := states s; queue_ := q';
                       traversal_cost_ := traversal_cost_ s;
                       iterations := (iterations s + 1)%Z |} in
          if ecost_neq curr_cost (integrated_cost (states s !!! node)) then
            unbounded_loop pl g goal_id_ blocked_ids fuel' s1
          else if isGoal goal_id_ (g !!! node) then Some (inr s1)
          else
            match expand pl g goal_id_ blocked_ids curr_cost (getEdges g node) s1 with
            | inl err => Some (inl err)
            | inr s2 => unbounded_loop pl g goal_id_ blocked_ids fuel' s2
            end
      end
  end.

Definition unbounded_traversal (pl : Planner) (fuel : nat) (q0 : NodeQueue)
    (g : Graph) (start_ goal : NodePtr) (blocked_ids : list nat)
  : option (result (list SearchState)) :=
  match unbounded_loop pl g (nodeid (g !!! goal)) blocked_ids fuel (setup q0 g start_) with
  | None => None
  | Some (inl err) => Some (inl err)
  | Some (inr s) => Some (inr (states s))
  end.

End RoutePlanner.

(** ** AdjustEdgesScorer ([adjust_edges_scorer.hpp] and its [.cpp]) *)

Module Msg.
(** [nav2_msgs::msg::EdgeCost], an entry of [request->adjust_edges]. *)
Record EdgeCost : Type := mkEdgeCost { edgeid : nat; cost : Q }.
End Msg.

Module AdjustEdgesScorer.

Record Scorer : Type := mkScorer {
  closed_edges_ : gset nat;
  dynamic_penalties_ : gmap nat Q
}.

Record Request : Type := mkRequest {
  closed_edges : list nat;
  opened_edges : list nat;
  adjust_edges : list Msg.EdgeCost
}.

Record Response : Type := mkResponse { success : bool }.

(** [configure] clears both containers. *)
Definition configure : Scorer :=
  {| closed_edges_ := ∅; dynamic_penalties_ := ∅ |}.

Definition closedEdgesCb (sc : Scorer) (request : Request) : Scorer * Response :=
  (* Add new closed edges *)
  let closed1 :=
    foldl (fun (s : gset nat) edge => {[edge]} ∪ s) (closed_edges_ sc) (closed_edges request) in
  (* Removed now opened edges, if stored *)
  let closed2 :=
    foldl (fun (s : gset nat) edge => if decide (edge ∈ s) then s ∖ {[edge]} else s)
      closed1 (opened_edges request) in
  (* Add dynamic costs from application system for edges *)
  let penalties :=
    foldl (fun (m : gmap nat Q) edge => <[Msg.edgeid edge := Msg.cost edge]> m)
      (dynamic_penalties_ sc) (adjust_edges request) in
  ({| closed_edges_ := closed2; dynamic_penalties_ := penalties |},
   {| success := true |}).

(** [score(edge, cost)]: the pair is the returned flag and the value of the
    [float & cost] after the call. *)
Definition score (sc : Scorer) (edge : DirectionalEdge) (cost : Q) : bool * Q :=
  if decide (edgeid edge ∈ closed_edges_ sc) then (false, cost)
  else
    match dynamic_penalties_ sc !! edgeid edge with
    | Some v => (true, v)
    | None => (true, cost)
    end.

(** The cost of the last entry for [id] in a list of adjustments. *)
Definition last_adjust (id : nat) (l : list Msg.EdgeCost) : option Q :=
  foldl (fun acc e => if decide (Msg.edgeid e = id) then Some (Msg.cost e) else acc) None l.

End AdjustEdgesScorer.

(** ** CostmapScorer ([costmap_scorer.cpp]) *)

Module CostmapScorer.

(** What the scorer uses of [nav2_costmap_2d::Costmap2D] and of
    [nav2_util::LineIterator], which belong to other packages and are not
    among the sources: the conversion of a world point to a cell (which may
    fail), the cost byte of a cell, and the cells a line iterator visits
    between two cells. *)
Record Costmap2D : Type := mkCostmap {
  worldToMap : Q -> Q -> option (nat * nat);
  getCost : nat -> nat -> nat;
  LineIterator : nat -> nat -> nat -> nat -> list (nat * nat)
}.

Record Scorer : Type := mkScorer {
  use_max_ : bool;
  invalid_on_collision_ : bool;
  invalid_off_map_ : bool;
  max_cost_ : Q;
  weight_ : Q;
  costmap_ : option Costmap2D
}.

(** The locals of the line walk. *)
Record Walk : Type := mkWalk {
  largest_cost : Q;
  running_cost : Q;
  idx : nat
}.

(** One pass of the [for] loop body on a sample; [None] is the early
    [return false]. *)
Definition sample (sc : Scorer) (point_cost : Q) (w : Walk) : option Walk :=
  if Qle_bool (max_cost_ sc) point_cost && negb (Qeq_bool (max_cost_ sc) 255)
     && invalid_on_collision_ sc
  then None
  else
    Some {| idx := S (idx w);
            running_cost := (running_cost w + point_cost)%Q;
            largest_cost :=
              if Qlt_bool (largest_cost w) point_cost && negb (Qeq_bool point_cost 255)
              then point_cost else largest_cost w |}.

Fixpoint walk (sc : Scorer) (cm : Costmap2D) (cells : list (nat * nat)) (w : Walk)
  : option Walk :=
  match cells with
  | [] => Some w
  | (cx, cy) :: rest =>
      let point_cost := inject_Z (Z.of_nat (getCost cm cx cy)) in
      match sample sc point_cost w with
      | None => None
      | Some w' => walk sc cm rest w'
      end
  end.

(** [score(edge, cost)]; a division by zero, undefined for the rationals,
    follows [Qdiv] (it yields 0). *)
Definition score (sc : Scorer) (g : Graph) (edge : DirectionalEdge) (cost : Q) : bool * Q :=
  match costmap_ sc with
  | None => (false, cost)
  | Some cm =>
      let s := coords (g !!! start edge) in
      let e := coords (g !!! end_ edge) in
      match worldToMap cm (x s) (y s), worldToMap cm (x e) (y e) with
      | Some (x0, y0), Some (x1, y1) =>
          match walk sc cm (LineIterator cm x0 y0 x1 y1)
                  {| largest_cost := 0; running_cost := 0; idx := 0 |} with
          | None => (false, cost)
          | Some w =>
              if use_max_ sc then
                (true, (weight_ sc * largest_cost w / max_cost_ sc)%Q)
              else
                (true, (weight_ sc * running_cost w
                        / (inject_Z (Z.of_nat (idx w)) * max_cost_ sc))%Q)
          end
      | _, _ => if invalid_off_map_ sc then (false, cost) else (true, cost)
      end
  end.

(** [prepare]: the costmap is taken from the subscriber, whose
    [getCostmap] throws as long as no costmap was received; the exception
    is caught and leaves the scorer without a costmap.  [feed] is what the
    subscriber has to give, [None] being the throw. *)
Definition prepare (sc : Scorer) (feed : option Costmap2D) : Scorer :=
  {| use_max_ := use_max_ sc;
     invalid_on_collision_ := invalid_on_collision_ sc;
     invalid_off_map_ := invalid_off_map_ sc;
     max_cost_ := max_cost_ sc;
     weight_ := weight_ sc;
     costmap_ := feed |}.

(** The cost samples of the cells of a line, in the order the walk reads
    them. *)
Definition samples (cm : Costmap2D) (cells : list (nat * nat)) : list Q :=
  List.map (fun c => inject_Z (Z.of_nat (getCost cm (fst c) (snd c)))) cells.

End CostmapScorer.

(** ** Paths of a graph and their cost (the reference the search is
    compared with) *)

Module Paths.

(** [e] is one of the edges stored in the node it starts from. *)
Definition edge_in (g : Graph) (e : DirectionalEdge) : Prop :=
  exists n, g !! start e = Some n /\ e ∈ neighbors n.

(** [is_path g a b es]: the edges [es], in this order, lead from node [a]
    to node [b]. *)
Fixpoint is_path (g : Graph) (a b : NodePtr) (es : list DirectionalEdge) : Prop :=
  match es with
  | [] => a = b
  | e :: es' => edge_in g e /\ start e = a /\ is_path g (end_ e) b es'
  end.

(** The sum of the prices [w] of the edges of a path. *)
Definition path_cost (w : DirectionalEdge -> Q) (es : list DirectionalEdge) : Q :=
  foldr (fun e acc => (w e + acc)%Q) 0%Q es.

(** Every edge is stored in the node it starts from and ends inside the
    graph. *)
Definition edges_stored (g : Graph) : Prop :=
  forall u n e, g !! u = Some n -> e ∈ neighbors n -> start e = u /\ end_ e < length g.

(** Every edge is stored in the node it starts from and ends inside the
    graph, and no two nodes share an id. *)
Definition wf_graph (g : Graph) : Prop :=
  edges_stored g /\
  (forall u v n m, g !! u = Some n -> g !! v = Some m -> nodeid n = nodeid m -> u = v).

(** [c] is the cost of a cheapest path from [a] to [b]. *)
Definition cheapest (g : Graph) (w : DirectionalEdge -> Q) (a b : NodePtr) (c : Q) : Prop :=
  (exists es, is_path g a b es /\ (path_cost w es == c)%Q) /\
  (forall es, is_path g a b es -> (c <= path_cost w es)%Q).

(** The sums the search forms on its way to the goal are formed without
    rounding: the cost [c] of a cheapest path to a node [u] other than the
    goal and not farther than the goal, plus the price of an edge out of
    [u]. *)
Definition exact_sums (g : Graph) (w : DirectionalEdge -> Q) (start_ goal : NodePtr) : Prop :=
  forall u c e,
    u <> goal ->
    cheapest g w start_ u c ->
    (forall es, is_path g start_ goal es -> (c <= path_cost w es)%Q) ->
    e ∈ neighbors (g !!! u) ->
    exists p, Float32.add c (w e) = Finite p /\ (p == c + w e)%Q.

Definition num_edges (g : Graph) : nat :=
  foldr (fun n acc => length (neighbors n) + acc) 0 g.

End Paths.

(** ** Sample graphs *)

Module Samples.
Import RoutePlanner.

Definition edge (id s t : nat) (c : Q) : DirectionalEdge :=
  {| edgeid := id; start := s; end_ := t;
     edge_cost := {| Types.cost := c; overridable := false |} |}.

Definition node (id : nat) (es : list DirectionalEdge) : Node :=
  {| nodeid := id; coords := {| x := 0; y := 0 |}; neighbors := es |}.

(** A scorer with no plugin loaded. *)
Definition no_plugins : EdgeScorer :=
  {| numPlugins := 0; score := fun _ c => (true, c) |}.

(** Node 0 -> node 1, cost 1. *)
Definition two_nodes : Graph :=
  [node 0 [edge 10 0 1 1]; node 1 []].

(** The scenario of the specification: A -> B -> C -> D, each of cost 1,
    and a direct edge A -> D of cost 5. *)
Definition four_nodes : Graph :=
  [node 0 [edge 10 0 3 5; edge 11 0 1 1];
   node 1 [edge 12 1 2 1];
   node 2 [edge 13 2 3 1];
   node 3 []].

(** A direct edge of cost 2 and a detour of cost 3 + (-5). *)
Definition negative_detour : Graph :=
  [node 0 [edge 10 0 2 2; edge 11 0 1 3];
   node 1 [edge 12 1 2 (-5)];
   node 2 []].

(** 0 -> 1 at cost 2 ^ 24 and 1 -> 2 at cost 1: the sum 2 ^ 24 + 1 is no
    number of single precision. *)
Definition rounding_chain : Graph :=
  [node 0 [edge 10 0 1 16777216]; node 1 [edge 11 1 2 1]; node 2 []].

(** The chain 0 -> 1 -> ... -> n - 1, every edge of cost 1. *)
Definition chain (n : nat) : Graph :=
  (fun i => node i (if S i <? n then [edge i i (S i) 1] else [])) <$> seq 0 n.

End Samples.

(** ** A sample costmap *)

Module CostmapSamples.
Import CostmapScorer.

(** A costmap of two cells in one row, of resolution 1 and origin (0, 0):
    cell (0, 0) is free and cell (1, 0) is unknown (255).  Its line
    iterator is the one of a line inside a row. *)
Definition two_cells : Costmap2D :=
  {| worldToMap := fun wx wy =>
       if Qle_bool 0 wx && Qlt_bool wx 2 && Qle_bool 0 wy && Qlt_bool wy 1
       then Some (Z.to_nat (Qfloor wx), Z.to_nat (Qfloor wy)) else None;
     getCost := fun mx my => if mx =? 1 then 255 else 0;
     LineIterator := fun x0 y0 x1 y1 =>
       List.map (fun i => (i, y0)) (seq x0 (S (x1 - x0))) |}.

(** Node 0 lies in the free cell, node 1 in the unknown cell, node 2
    outside the map. *)
Definition graph : Graph :=
  [ {| nodeid := 0; coords := {| x := 1 # 2; y := 1 # 2 |}; neighbors := [] |};
    {| nodeid := 1; coords := {| x := 3 # 2; y := 1 # 2 |}; neighbors := [] |};
    {| nodeid := 2; coords := {| x := 5; y := 5 |}; neighbors := [] |} ].

Definition edge01 : DirectionalEdge :=
  {| edgeid := 10; start := 0; end_ := 1;
     edge_cost := {| Types.cost := 0; overridable := true |} |}.

Definition edge02 : DirectionalEdge :=
  {| edgeid := 11; start := 0; end_ := 2;
     edge_cost := {| Types.cost := 0; overridable := true |} |}.

Definition scorer (use_max on_collision off_map : bool) : Scorer :=
  {| use_max_ := use_max; invalid_on_collision_ := on_collision;
     invalid_off_map_ := off_map; max_cost_ := 253; weight_ := 1;
     costmap_ := Some two_cells |}.

End CostmapSamples.

(** ** Predicates of the pricing *)

Module Pricing.
Import RoutePlanner.

Section Defs.
Variables (pl : Planner) (g : Graph) (goal_id_ : nat).

(** The blocked-id test of the C++ lambda, as membership. *)
Definition blocked (edge : DirectionalEdge) (blocked_ids : list nat) : Prop :=
  edgeid edge ∈ blocked_ids \/ nodeid (g !!! end_ edge) ∈ blocked_ids.

(** The edge is withheld by the blocked-id list. *)
Definition vetoed (edge : DirectionalEdge) (blocked_ids : list nat) : Prop :=
  blocked edge blocked_ids /\ nodeid (g !!! end_ edge) <> goal_id_.

(** The edge is priced by its static cost. *)
Definition static_priced (edge : DirectionalEdge) : Prop :=
  overridable (edge_cost edge) = false \/ numPlugins (edge_scorer_ pl) = 0%Z.

End Defs.

End Pricing.
Export Pricing.

(** ** Invariants of the search *)

Module Invariants.
Import RoutePlanner Paths.

(** Every recorded parent edge has the property [P]. *)
Definition parents_sat (P : DirectionalEdge -> Prop) (sts : list SearchState) : Prop :=
  forall v e, parent_edge (sts !!! v) = Some e -> P e.

Section Defs.
Variables (g : Graph) (start_ goal : NodePtr) (w : DirectionalEdge -> Q).

(** The cost recorded for node [v]. *)
Definition dist (sts : list SearchState) (v : NodePtr) : ecost :=
  integrated_cost (sts !!! v).

(** The state written into the destination of a relaxed edge. *)
Definition relax (sts : list SearchState) (e : DirectionalEdge) (p tc : Q)
  : list SearchState :=
  <[end_ e := {| parent_edge := Some e; integrated_cost := Finite p;
                 traversal_cost := Finite tc |}]> sts.

(** What the search states satisfy at every point of the search. *)
Record Core (sts : list SearchState) : Prop := {
  core_len : length sts = length g;
  core_start : dist sts start_ = Finite 0 /\ parent_edge (sts !!! start_) = None;
  core_nonneg : forall v d, dist sts v = Finite d -> (0 <= d)%Q;
  core_par : forall v e, parent_edge (sts !!! v) = Some e ->
    edge_in g e /\ end_ e = v /\
    exists d d', dist sts v = Finite d /\ dist sts (start e) = Finite d' /\
                 (d' + w e <= d)%Q;
  core_fin : forall v d, dist sts v = Finite d -> v <> start_ ->
    exists e, parent_edge (sts !!! v) = Some e;
  core_path : forall v d, dist sts v = Finite d ->
    exists es, is_path g start_ v es /\ (path_cost w es == d)%Q
}.

(** The order in which the nodes were expanded, the latest first: the
    goal is not among them, every parent edge starts from one of them, and
    the parent edge of an expanded node starts from a node that was
    expanded earlier. *)
Record Hist (X : list NodePtr) (sts : list SearchState) : Prop := {
  hist_nodup : NoDup X;
  hist_range : forall x, x ∈ X -> x < length g;
  hist_goal : goal ∉ X;
  hist_par : forall v e, parent_edge (sts !!! v) = Some e -> start e ∈ X;
  hist_old : forall X1 x X2 e, X = X1 ++ x :: X2 ->
    parent_edge (sts !!! x) = Some e -> start e ∈ X2
}.

(** Every edge out of [v] has been relaxed at the present cost of [v]. *)
Definition relaxed (sts : list SearchState) (v : NodePtr) : Prop :=
  exists d, dist sts v = Finite d /\
    forall e, e ∈ neighbors (g !!! v) ->
      exists d2, dist sts (end_ e) = Finite d2 /\ (d2 <= d + w e)%Q.

(** The state of the search while the edges of the popped node [u] are
    walked: [c] is the cost [u] was popped at, [X] the nodes expanded
    before, [seen] the edges of [u] walked so far. *)
Record Inner (X : list NodePtr) (u : NodePtr) (c : Q) (seen : list DirectionalEdge)
    (sts : list SearchState) (q : NodeQueue) : Prop := {
  in_core : Core sts;
  in_queue : forall c' v, (c', v) ∈ q ->
    (c <= c')%Q /\ exists d, dist sts v = Finite d /\ (d <= c')%Q;
  in_X : forall x, x ∈ X ->
    relaxed sts x /\ exists d, dist sts x = Finite d /\ (d <= c)%Q;
  in_lc : forall v d, dist sts v = Finite d -> v <> u -> (d, v) ∈ q \/ v ∈ X;
  in_u : exists du, dist sts u = Finite du /\ (c == du)%Q /\
    forall e, e ∈ seen ->
      exists d2, dist sts (end_ e) = Finite d2 /\ (d2 <= du + w e)%Q
}.

(** The state of the search at the head of the loop; [X] holds the nodes
    that were expanded. *)
Record Inv (X : list NodePtr) (sts : list SearchState) (q : NodeQueue) : Prop := {
  inv_core : Core sts;
  inv_queue : forall c v, (c, v) ∈ q -> exists d, dist sts v = Finite d /\ (d <= c)%Q;
  inv_X : forall x, x ∈ X ->
    relaxed sts x /\
    exists d, dist sts x = Finite d /\ forall c y, (c, y) ∈ q -> (d <= c)%Q;
  inv_lc : forall v d, dist sts v = Finite d -> (d, v) ∈ q \/ v ∈ X
}.

(** The edges that may still be relaxed, and the bound on the number of
    iterations that are left. *)
Definition outdeg (v : NodePtr) : nat := length (neighbors (g !!! v)).

Definition pending (X : list NodePtr) : nat :=
  sum_list ((fun v => if decide (v ∈ X) then 0 else outdeg v) <$> seq 0 (length g)).

Definition measure (X : list NodePtr) (q : NodeQueue) : nat := length q + pending X.

(** What holds of the search states when the loop is left. *)
Definition Final (sts : list SearchState) : Prop :=
  Core sts /\
  (exists X, Hist X sts) /\
  forall es, is_path g start_ goal es ->
    exists d, dist sts goal = Finite d /\ (d <= path_cost w es)%Q.

End Defs.

(** The search on the chain before its iteration number [k + 1]: node [k]
    is the only scheduled node, at its current cost, and no node behind it
    was reached.  The cost is a whole number, and no more than [2 ^ 24],
    the number at which adding 1 stops changing a [float]. *)
Definition chain_state (n k : nat) (s : Search) : Prop :=
  (exists c z, queue_ s = [(c, k)] /\ integrated_cost (states s !!! k) = Finite c /\
               (c == inject_Z z)%Q /\ (0 <= z <= 2 ^ 24)%Z) /\
  (forall j, k < j -> integrated_cost (states s !!! j) = Infinite) /\
  length (states s) = n /\
  iterations s = Z.of_nat k.

Arguments core_len {g start_ w sts}.
Arguments core_start {g start_ w sts}.
Arguments core_nonneg {g start_ w sts}.
Arguments core_par {g start_ w sts}.
Arguments core_fin {g start_ w sts}.
Arguments core_path {g start_ w sts}.
Arguments hist_nodup {g goal X sts}.
Arguments hist_range {g goal X sts}.
Arguments hist_goal {g goal X sts}.
Arguments hist_par {g goal X sts}.
Arguments hist_old {g goal X sts}.
Arguments inv_core {g start_ w X sts q}.
Arguments inv_queue {g start_ w X sts q}.
Arguments inv_X {g start_ w X sts q}.
Arguments inv_lc {g start_ w X sts q}.

End Invariants.
Export Invariants.

(** ** The parent edges as links of a route *)

Module RouteInvariants.
Import RoutePlanner Paths.


End RouteInvariants.
Export RouteInvariants.

(** * Properties *)

(** ** Comparisons of costs *)

Lemma Qlt_bool_iff (a b : Q) : Qlt_bool a b = true <-> (a < b)%Q.
Proof.
  unfold Qlt_bool. rewrite negb_true_iff. split.
  - intros H. apply Qnot_le_lt. intros Hle. apply Qle_bool_iff in Hle. congruence.
  - intros H. destruct (Qle_bool b a) eqn:E; [|reflexivity].
    apply Qle_bool_iff in E. exfalso. apply (Qlt_not_le _ _ H E).
Qed.

Lemma Qlt_bool_false (a b : Q) : Qlt_bool a b = false <-> (b <= a)%Q.
Proof.
  unfold Qlt_bool. rewrite negb_false_iff. apply Qle_bool_iff.
Qed.

Lemma Qle_bool_false (a b : Q) : Qle_bool a b = false <-> (b < a)%Q.
Proof.
  rewrite <- Qlt_bool_iff. unfold Qlt_bool. now rewrite negb_true_iff.
Qed.

Lemma Qeq_bool_same (a : Q) : Qeq_bool a a = true.
Proof. apply Qeq_bool_iff. reflexivity. Qed.

Lemma Qeq_bool_false (a b : Q) : Qeq_bool a b = false <-> ~ (a == b)%Q.
Proof.
  split.
  - intros H Heq. apply Qeq_bool_iff in Heq. congruence.
  - intros H. destruct (Qeq_bool a b) eqn:E; [|reflexivity].
    apply Qeq_bool_iff in E. contradiction.
Qed.

(** ** Sums in single precision *)

Section Float32Facts.
Import Float32.
Local Open Scope Q_scope.

Lemma round_comp (p q : Q) : p == q -> round p = round q.
Proof. intros H. unfold round. now rewrite (Qred_complete p q H). Qed.

Lemma Qred_inject_Z (z : Z) : Qred (inject_Z z) = inject_Z z.
Proof.
  unfold Qred, inject_Z.
  pose proof (Z.ggcd_gcd z 1) as Hg. pose proof (Z.ggcd_correct_divisors z 1) as Hd.
  destruct (Z.ggcd z 1) as [d [aa bb]]. cbn [fst snd] in *.
  rewrite Z.gcd_1_r in Hg. subst d. destruct Hd as [Ha Hb].
  rewrite Z.mul_1_l in Ha, Hb. now subst aa bb.
Qed.

Lemma ilog2_inject_Z (z : Z) : (0 < z)%Z -> ilog2 (inject_Z z) = Z.log2 z.
Proof.
  intros Hz. unfold ilog2. cbn [Qnum Qden inject_Z].
  change (Z.log2 1) with 0%Z. rewrite Z.sub_0_r.
  replace (Qle_bool (2 ^ Z.log2 z) (inject_Z z)) with true; [reflexivity|].
  symmetry. apply Qle_bool_iff.
  change 2 with (inject_Z 2). rewrite <- Zpower_Qpower by apply Z.log2_nonneg.
  rewrite <- Zle_Qle. now apply Z.log2_spec.
Qed.

Lemma round_half_even_inject_Z (q : Q) (m : Z) : q == inject_Z m -> round_half_even q = m.
Proof.
  intros H. unfold round_half_even.
  rewrite (Qfloor_comp _ _ H), Qfloor_Z.
  replace (Qcompare (q - inject_Z m) (1 # 2)) with Lt; [reflexivity|].
  symmetry. apply Qlt_alt.
  assert (H0 : q - inject_Z m == 0) by (rewrite H; ring).
  rewrite H0. reflexivity.
Qed.

(** The whole numbers up to [2 ^ 24] are numbers of single precision. *)
Lemma round_inject_Z (z : Z) : (0 <= z <= 2 ^ 24)%Z -> round (inject_Z z) = inject_Z z.
Proof.
  intros [H0 H24]. destruct (Z.eq_dec z 0%Z) as [->|Hne]; [reflexivity|].
  assert (Hpos : (0 < z)%Z) by lia.
  destruct (Z.eq_dec z (2 ^ 24)%Z) as [->|Hne24]; [vm_compute; reflexivity|].
  assert (HL : (0 <= Z.log2 z <= 23)%Z).
  { split; [apply Z.log2_nonneg|].
    assert (Z.log2 z < 24)%Z; [|lia].
    apply Z.log2_lt_pow2; lia. }
  unfold round. rewrite Qred_inject_Z.
  replace (Qeq_bool (inject_Z z) 0) with false
    by (symmetry; apply Qeq_bool_false; change 0 with (inject_Z 0);
        rewrite inject_Z_injective; lia).
  replace (Qabs (inject_Z z)) with (inject_Z z)
    by (unfold Qabs, inject_Z; now rewrite Z.abs_eq by lia).
  rewrite ilog2_inject_Z by exact Hpos.
  rewrite Z.max_l by lia.
  set (k := (23 - Z.log2 z)%Z).
  assert (Hk : (0 <= k)%Z) by (unfold k; lia).
  replace (Z.log2 z - 23)%Z with (- k)%Z by (unfold k; lia).
  assert (Hpow : 2 ^ (- k) * inject_Z (2 ^ k) == 1).
  { rewrite Zpower_Qpower by exact Hk. change (inject_Z 2) with 2.
    rewrite <- Qpower_plus by discriminate.
    replace (- k + k)%Z with 0%Z by lia. reflexivity. }
  assert (Hnz : ~ 2 ^ (- k) == 0).
  { intros H0'. rewrite H0' in Hpow. lra. }
  assert (Hinv : inject_Z (2 ^ k) == / 2 ^ (- k)).
  { apply (Qmult_inj_l _ _ (2 ^ (- k)) Hnz). rewrite Hpow, Qmult_inv_r by exact Hnz.
    reflexivity. }
  assert (Hdiv : inject_Z z / 2 ^ (- k) == inject_Z (z * 2 ^ k)).
  { rewrite inject_Z_mult, Hinv. reflexivity. }
  rewrite (round_half_even_inject_Z _ _ Hdiv).
  transitivity (Qred (inject_Z z)); [|apply Qred_inject_Z].
  apply Qred_complete.
  rewrite inject_Z_mult, <- Qmult_assoc, (Qmult_comm (inject_Z (2 ^ k))), Hpow. ring.
Qed.

Lemma add_inject_Z (a b : Q) (z : Z) :
  a + b == inject_Z z -> (0 <= z <= 2 ^ 24)%Z -> add a b = Finite (inject_Z z).
Proof.
  intros H Hz. unfold add. rewrite (round_comp _ _ H), (round_inject_Z z Hz).
  replace (Qle_bool (2 ^ 128) (inject_Z z)) with false; [reflexivity|].
  symmetry. apply Qle_bool_false.
  apply Qle_lt_trans with (inject_Z (2 ^ 24)); [rewrite <- Zle_Qle; lia|].
  vm_compute. reflexivity.
Qed.

(** A sum that is a whole number up to [2 ^ 24] is formed without
    rounding. *)
Lemma add_exact (a b : Q) (z : Z) :
  a + b == inject_Z z -> (0 <= z <= 2 ^ 24)%Z ->
  exists p, add a b = Finite p /\ p == a + b.
Proof.
  intros H Hz. exists (inject_Z z). split; [now apply add_inject_Z|].
  symmetry. exact H.
Qed.

(** From [2 ^ 24] on, adding 1 changes nothing. *)
Lemma add_one (a : Q) (z : Z) :
  a == inject_Z z -> (0 <= z <= 2 ^ 24)%Z ->
  add a 1 = Finite (inject_Z (Z.min (z + 1) (2 ^ 24))).
Proof.
  intros H Hz. destruct (Z.eq_dec z (2 ^ 24)%Z) as [->|Hne].
  - unfold add. assert (H1 : a + 1 == inject_Z (2 ^ 24 + 1)).
    { rewrite inject_Z_plus, H. reflexivity. }
    rewrite (round_comp _ _ H1). vm_compute. reflexivity.
  - rewrite Z.min_l by lia. apply add_inject_Z; [|lia].
    rewrite inject_Z_plus, H. reflexivity.
Qed.

End Float32Facts.

(** ** Edge pricing: [getTraversalCost] *)

Section PricingFacts.
Import RoutePlanner.

Variables (pl : Planner) (g : Graph) (goal_id_ : nat).

Local Abbreviation blocked := (Pricing.blocked g).
Local Abbreviation vetoed := (Pricing.vetoed g goal_id_).
Local Abbreviation static_priced := (Pricing.static_priced pl).

Lemma find_idBlocked edge blocked_ids :
  List.find (idBlocked g edge) blocked_ids <> None <-> blocked edge blocked_ids.
Proof.
  unfold Pricing.blocked, idBlocked. induction blocked_ids as [|i l IH]; simpl.
  - split; [congruence|]. intros [H|H]; inversion H.
  - destruct (Nat.eqb_spec i (edgeid edge)) as [->|Hne]; simpl.
    + split; [intros _; left; constructor | congruence].
    + destruct (Nat.eqb_spec i (nodeid (g !!! end_ edge))) as [->|Hne'].
      * split; [intros _; right; constructor | congruence].
      * rewrite IH, !elem_of_cons. intuition congruence.
Qed.

Lemma veto_test edge blocked_ids :
  bool_decide (List.find (idBlocked g edge) blocked_ids <> None)
    && negb (isGoal goal_id_ (g !!! end_ edge)) = true
  <-> vetoed edge blocked_ids.
Proof.
  unfold Pricing.vetoed, isGoal. rewrite andb_true_iff, bool_decide_eq_true, find_idBlocked.
  rewrite negb_true_iff, Nat.eqb_neq. reflexivity.
Qed.

Lemma getTraversalCost_vetoed edge sc blocked_ids :
  vetoed edge blocked_ids ->
  getTraversalCost pl g goal_id_ edge sc blocked_ids = inr (false, sc).
Proof.
  intros H. apply veto_test in H. unfold getTraversalCost. now rewrite H.
Qed.

Lemma getTraversalCost_not_vetoed edge sc blocked_ids :
  ~ vetoed edge blocked_ids ->
  getTraversalCost pl g goal_id_ edge sc blocked_ids =
    if negb (overridable (edge_cost edge)) || (numPlugins (edge_scorer_ pl) =? 0)%Z then
      if Qeq_bool (Types.cost (edge_cost edge)) 0 then inl NoValidGraph
      else inr (true, Types.cost (edge_cost edge))
    else inr (score (edge_scorer_ pl) edge sc).
Proof.
  intros H. unfold getTraversalCost.
  destruct (bool_decide _ && negb _) eqn:E; [|reflexivity].
  apply veto_test in E. contradiction.
Qed.

Lemma static_priced_test edge :
  static_priced edge ->
  negb (overridable (edge_cost edge)) || (numPlugins (edge_scorer_ pl) =? 0)%Z = true.
Proof.
  intros [H|H]; rewrite H; [reflexivity|]. now rewrite orb_true_r.
Qed.

Lemma getTraversalCost_static edge sc blocked_ids :
  static_priced edge ->
  ~ vetoed edge blocked_ids ->
  getTraversalCost pl g goal_id_ edge sc blocked_ids =
    if Qeq_bool (Types.cost (edge_cost edge)) 0 then inl NoValidGraph
    else inr (true, Types.cost (edge_cost edge)).
Proof.
  intros Hs Hv.
  now rewrite (getTraversalCost_not_vetoed _ _ _ Hv), (static_priced_test _ Hs).
Qed.

(** An edge that gets a price has passed the veto. *)
Lemma getTraversalCost_true edge sc blocked_ids c :
  getTraversalCost pl g goal_id_ edge sc blocked_ids = inr (true, c) ->
  ~ vetoed edge blocked_ids.
Proof.
  intros H Hv. rewrite (getTraversalCost_vetoed _ _ _ Hv) in H. discriminate.
Qed.

End PricingFacts.

Section PricingClaims.
Import RoutePlanner Samples.

(** C2, as the code has it: an edge that is priced by its static cost (it
    is not overridable, or no scorer plugin is loaded) and is not withheld
    by the blocked-id list fails with [NoValidGraph] exactly when that cost
    is zero; any other static cost, positive or negative, is accepted and
    returned as it is. *)
Theorem C2_static_cost_zero_is_rejected :
  forall pl g goal_id_ edge sc blocked_ids,
    static_priced pl edge ->
    ~ vetoed g goal_id_ edge blocked_ids ->
    (Types.cost (edge_cost edge) == 0 ->
       getTraversalCost pl g goal_id_ edge sc blocked_ids = inl NoValidGraph) /\
    (~ Types.cost (edge_cost edge) == 0 ->
       getTraversalCost pl g goal_id_ edge sc blocked_ids
         = inr (true, Types.cost (edge_cost edge))).
Proof.
  intros pl g goal_id_ edge sc blocked_ids Hs Hv.
  rewrite (getTraversalCost_static _ _ _ _ _ _ Hs Hv).
  split; intros Hc.
  - apply Qeq_bool_iff in Hc. now rewrite Hc.
  - destruct (Qeq_bool _ 0) eqn:E; [|reflexivity].
    apply Qeq_bool_iff in E. contradiction.
Qed.

Lemma C2_static_cost_zero_is_rejected_witness :
  getTraversalCost (configure 0 no_plugins) two_nodes 1 (edge 10 0 1 0) 7 [] = inl NoValidGraph /\
  getTraversalCost (configure 0 no_plugins) two_nodes 1 (edge 10 0 1 1) 7 [] = inr (true, 1%Q).
Proof.
  split.
  - apply (C2_static_cost_zero_is_rejected (configure 0 no_plugins) two_nodes 1
             (edge 10 0 1 0) 7 []).
    + left. reflexivity.
    + intros [[H|H] _]; inversion H.
    + reflexivity.
  - apply (C2_static_cost_zero_is_rejected (configure 0 no_plugins) two_nodes 1
             (edge 10 0 1 1) 7 []).
    + left. reflexivity.
    + intros [[H|H] _]; inversion H.
    + intros H. discriminate H.
Defined.

(** C2 as stated fails at a negative static cost: the edge 0 -> 1 of cost
    -1, not overridable and not blocked, is priced at -1 instead of being
    refused. *)
Lemma C2_negative_static_cost_is_accepted :
  static_priced (configure 0 no_plugins) (edge 10 0 1 (-1)) /\
  (Types.cost (edge_cost (edge 10 0 1 (-1))) <= 0)%Q /\
  getTraversalCost (configure 0 no_plugins) two_nodes 1 (edge 10 0 1 (-1)) 7 []
    = inr (true, (-1)%Q) /\
  getTraversalCost (configure 0 no_plugins) two_nodes 1 (edge 10 0 1 (-1)) 7 []
    <> inl NoValidGraph.
Proof.
  split; [left; reflexivity|]. split; [discriminate|]. split; [reflexivity|discriminate].
Qed.

(** C10: the blocked-id veto comes before the check of the static cost.
    An edge whose id or whose destination's id is in the blocked list, and
    whose destination is not the goal, is answered "not traversable" with
    the caller's score untouched, whatever its cost descriptor is; the same
    edge, when it is not overridable, has a zero static cost and is not
    vetoed, raises [NoValidGraph]. *)
Theorem C10_veto_precedes_cost_check :
  forall pl g goal_id_ edge sc blocked_ids,
    blocked g edge blocked_ids ->
    nodeid (g !!! end_ edge) <> goal_id_ ->
    getTraversalCost pl g goal_id_ edge sc blocked_ids = inr (false, sc) /\
    (overridable (edge_cost edge) = false ->
     Types.cost (edge_cost edge) == 0 ->
     forall other_ids, ~ vetoed g goal_id_ edge other_ids ->
       getTraversalCost pl g goal_id_ edge sc other_ids = inl NoValidGraph).
Proof.
  intros pl g goal_id_ edge sc blocked_ids Hb Hg. split.
  - apply getTraversalCost_vetoed. split; assumption.
  - intros Ho Hc other_ids Hv.
    rewrite (getTraversalCost_static pl g goal_id_ edge sc other_ids (or_introl Ho) Hv).
    apply Qeq_bool_iff in Hc. now rewrite Hc.
Qed.

Lemma C10_veto_precedes_cost_check_witness :
  getTraversalCost (configure 0 no_plugins) four_nodes 3 (edge 11 0 1 0) 7 [11]
    = inr (false, 7%Q) /\
  getTraversalCost (configure 0 no_plugins) four_nodes 3 (edge 11 0 1 0) 7 []
    = inl NoValidGraph.
Proof.
  destruct (C10_veto_precedes_cost_check (configure 0 no_plugins) four_nodes 3
              (edge 11 0 1 0) 7 [11]) as [H1 H2].
  - left. constructor.
  - discriminate.
  - split; [exact H1|].
    apply H2; [reflexivity|reflexivity|].
    intros [[H|H] _]; inversion H.
Defined.

End PricingClaims.

(** ** The closure and penalty scorer *)

Section AdjustEdges.
Import AdjustEdgesScorer.

Lemma closed_after_insert (l : list nat) (s : gset nat) (id : nat) :
  id ∈ foldl (fun (s : gset nat) edge => {[edge]} ∪ s) s l <-> id ∈ l \/ id ∈ s.
Proof.
  revert s. induction l as [|e l IH]; intros s; simpl.
  - set_solver.
  - rewrite IH. set_solver.
Qed.

Lemma closed_after_erase (l : list nat) (s : gset nat) (id : nat) :
  id ∈ foldl (fun (s : gset nat) edge => if decide (edge ∈ s) then s ∖ {[edge]} else s) s l
  <-> id ∈ s /\ id ∉ l.
Proof.
  revert s. induction l as [|e l IH]; intros s; simpl.
  - set_solver.
  - rewrite IH. destruct (decide (e ∈ s)); set_solver.
Qed.

Lemma last_adjust_snoc (id : nat) (l : list Msg.EdgeCost) (e : Msg.EdgeCost) :
  last_adjust id (l ++ [e]) =
    if decide (Msg.edgeid e = id) then Some (Msg.cost e) else last_adjust id l.
Proof. unfold last_adjust. now rewrite foldl_app. Qed.

Lemma penalties_after_upsert (l : list Msg.EdgeCost) (m : gmap nat Q) (id : nat) :
  foldl (fun (m : gmap nat Q) edge => <[Msg.edgeid edge := Msg.cost edge]> m) m l !! id =
    match last_adjust id l with
    | Some c => Some c
    | None => m !! id
    end.
Proof.
  induction l as [|e l IH] using rev_ind.
  - reflexivity.
  - rewrite foldl_app, last_adjust_snoc. simpl.
    destruct (decide (Msg.edgeid e = id)) as [->|Hne].
    + apply lookup_insert_eq.
    + rewrite lookup_insert_ne by exact Hne. exact IH.
Qed.

(** C5: [score] of the closure and penalty scorer.  A closed edge is
    invalid and the cost output keeps the value the caller put there; an
    edge that is not closed is valid, with the mapped override as cost when
    the penalty map has an entry for it and the caller's value unchanged
    when it has none. *)
Theorem C5_adjust_edges_score :
  forall (sc : Scorer) (edge : DirectionalEdge) (c : Q),
    (edgeid edge ∈ closed_edges_ sc -> score sc edge c = (false, c)) /\
    (forall v, edgeid edge ∉ closed_edges_ sc ->
               dynamic_penalties_ sc !! edgeid edge = Some v ->
               score sc edge c = (true, v)) /\
    (edgeid edge ∉ closed_edges_ sc ->
     dynamic_penalties_ sc !! edgeid edge = None ->
     score sc edge c = (true, c)).
Proof.
  intros sc edge c. unfold score. repeat split.
  - intros H. now rewrite decide_True.
  - intros v H Hv. now rewrite decide_False, Hv.
  - intros H Hn. now rewrite decide_False, Hn.
Qed.

(** C8, as the code has it: the handler first inserts the closed list,
    then erases the opened list, then upserts the adjustments.  So every
    id of the opened list is absent from the closed set afterwards (also
    one that the same request closes), an id of the closed list that is
    not in the opened list is a member, any other id is a member exactly
    when it was one before, the penalty map holds for every id the cost of
    its last adjustment in the request (or its former entry when the
    request has none), and the response reports success.  The handler has
    no access to a graph. *)
Theorem C8_closedEdgesCb_postcondition :
  forall (sc : Scorer) (request : Request),
    let sc' := fst (closedEdgesCb sc request) in
    (forall id, id ∈ opened_edges request -> id ∉ closed_edges_ sc') /\
    (forall id, id ∈ closed_edges request -> id ∉ opened_edges request ->
                id ∈ closed_edges_ sc') /\
    (forall id, id ∉ closed_edges request -> id ∉ opened_edges request ->
                (id ∈ closed_edges_ sc' <-> id ∈ closed_edges_ sc)) /\
    (forall id, dynamic_penalties_ sc' !! id =
                  match last_adjust id (adjust_edges request) with
                  | Some c => Some c
                  | None => dynamic_penalties_ sc !! id
                  end) /\
    success (snd (closedEdgesCb sc request)) = true.
Proof.
  intros sc request. simpl.
  split; [|split; [|split; [|split]]].
  - intros id Ho. rewrite closed_after_erase. tauto.
  - intros id Hc Ho. rewrite closed_after_erase, closed_after_insert. tauto.
  - intros id Hc Ho. rewrite closed_after_erase, closed_after_insert. tauto.
  - intros id. apply penalties_after_upsert.
  - reflexivity.
Qed.

(** C8 as stated fails when one request closes and opens the same id: the
    id is in the closed list and yet not in the closed set afterwards. *)
Lemma C8_closed_then_opened_is_open :
  let request := {| closed_edges := [1]; opened_edges := [1]; adjust_edges := [] |} in
  1 ∈ closed_edges request /\
  1 ∉ closed_edges_ (fst (closedEdgesCb configure request)).
Proof.
  simpl. split; [constructor|].
  rewrite decide_True by set_solver. set_solver.
Qed.

End AdjustEdges.

(** ** The costmap scorer *)

Section Costmap.
Import CostmapScorer CostmapSamples.

(** C7: when the conversion of an end point of the edge to a cell fails,
    the scorer rejects the edge if [invalid_off_map_] is set and accepts it
    otherwise; an accepted edge gets nothing written to its cost output,
    which stays what the caller handed over, so that a caller who starts
    from zero reads a cost of zero. *)
Theorem C7_off_map_policy :
  forall (sc : Scorer) (cm : Costmap2D) (g : Graph) (edge : DirectionalEdge) (c : Q),
    costmap_ sc = Some cm ->
    worldToMap cm (x (coords (g !!! start edge))) (y (coords (g !!! start edge))) = None \/
    worldToMap cm (x (coords (g !!! end_ edge))) (y (coords (g !!! end_ edge))) = None ->
    (invalid_off_map_ sc = true -> fst (score sc g edge c) = false) /\
    (invalid_off_map_ sc = false ->
       score sc g edge c = (true, c) /\ score sc g edge 0 = (true, 0%Q)).
Proof.
  intros sc cm g edge c Hcm Hoff.
  assert (Hs : forall c', score sc g edge c' =
                 if invalid_off_map_ sc then (false, c') else (true, c')).
  { intros c'. unfold score. rewrite Hcm.
    destruct Hoff as [H|H]; rewrite H.
    - reflexivity.
    - destruct (worldToMap cm (x (coords (g !!! start edge))) _) as [[x0 y0]|];
        reflexivity. }
  split; intros Hp; rewrite !Hs, Hp; auto.
Qed.

Lemma C7_off_map_policy_witness :
  fst (score (scorer true true true) graph edge02 7) = false /\
  score (scorer true true false) graph edge02 7 = (true, 7%Q) /\
  score (scorer true true false) graph edge02 0 = (true, 0%Q).
Proof.
  split.
  - apply (C7_off_map_policy (scorer true true true) two_cells graph edge02 7);
      [reflexivity | right; reflexivity | reflexivity].
  - apply (C7_off_map_policy (scorer true true false) two_cells graph edge02 7);
      [reflexivity | right; reflexivity | reflexivity].
Defined.

(** C6 at a line that crosses an unknown cell.  The edge 0 -> 1 is sampled
    at a free cell (0) and at an unknown cell (255).  With [max_cost_] 253
    and [invalid_on_collision_] set, the unknown sample is taken for a
    collision and the edge is rejected; with [invalid_on_collision_] off
    and the mean in use, the unknown sample is summed into the cost, which
    is 255 / (2 * 253) and not 0.  Only the maximum leaves the unknown
    sample out. *)
Theorem C6_unknown_sample_is_not_excluded :
  List.map (fun c => getCost two_cells (fst c) (snd c)) (LineIterator two_cells 0 0 1 0)
    = [0; 255] /\
  score (scorer true true true) graph edge01 7 = (false, 7%Q) /\
  (exists c, score (scorer false false true) graph edge01 7 = (true, c) /\
             c == 255 # 506 /\ ~ c == 0) /\
  (exists c, score (scorer true false true) graph edge01 7 = (true, c) /\ c == 0).
Proof.
  split; [reflexivity|]. split; [reflexivity|]. split.
  - eexists. split; [vm_compute; reflexivity|]. split; [reflexivity|discriminate].
  - eexists. split; [vm_compute; reflexivity|reflexivity].
Qed.

End Costmap.

(** ** The search: what every recorded parent edge satisfies *)

Section ParentEdges.
Import RoutePlanner.

Variables (pl : Planner) (g : Graph) (goal_id_ : nat) (blocked_ids : list nat).

(** A property of edges that every priced edge has. *)
Variable P : DirectionalEdge -> Prop.
Hypothesis priced_P :
  forall e sc c, getTraversalCost pl g goal_id_ e sc blocked_ids = inr (true, c) -> P e.

Local Abbreviation parents_sat := (Invariants.parents_sat P).

Lemma lookup_total_insert_cases (sts : list SearchState) (i v : nat) (st : SearchState) :
  <[i := st]> sts !!! v = st \/ <[i := st]> sts !!! v = sts !!! v.
Proof.
  destruct (decide (i = v)) as [->|Hne].
  - destruct (decide (v < length sts)).
    + left. now apply list_lookup_total_insert_eq.
    + right. rewrite list_insert_ge by lia. reflexivity.
  - right. now apply list_lookup_total_insert_ne.
Qed.

Lemma parents_sat_insert sts i st :
  parents_sat sts ->
  (forall e, parent_edge st = Some e -> P e) ->
  parents_sat (<[i := st]> sts).
Proof.
  intros Hs Hst v e.
  destruct (lookup_total_insert_cases sts i v st) as [-> | ->]; [apply Hst | apply Hs].
Qed.

Lemma parents_sat_reset (q0 : NodeQueue) (start_ : NodePtr) :
  parents_sat (states (setup q0 g start_)).
Proof.
  simpl. apply parents_sat_insert; [|discriminate].
  intros v e. unfold resetSearchStates.
  destruct (decide (v < length g)) as [Hlt|Hge].
  - destruct (lookup_lt_is_Some_2 g v Hlt) as [n Hn].
    rewrite (list_lookup_total_correct _ v reset); [discriminate|].
    change (List.map ?f ?l) with (f <$> l). now rewrite list_lookup_fmap, Hn.
  - rewrite list_lookup_total_alt, lookup_ge_None_2; [discriminate|].
    rewrite length_map. lia.
Qed.

Lemma expand_parents_sat curr_cost es s s' :
  parents_sat (states s) ->
  expand pl g goal_id_ blocked_ids curr_cost es s = inr s' ->
  parents_sat (states s').
Proof.
  revert s. induction es as [|edge es IH]; intros s Hs; simpl.
  - intros [= <-]. exact Hs.
  - destruct (getTraversalCost _ _ _ edge _ _) as [err|[[] tc]] eqn:E; [discriminate| |].
    + destruct (Float32.add _ _) as [p|]; [|apply IH; exact Hs].
      destruct (ecost_lt _ _); apply IH; simpl; [|exact Hs].
      apply parents_sat_insert; [exact Hs|].
      simpl. intros e [= <-]. exact (priced_P _ _ _ E).
    + apply IH. exact Hs.
Qed.

Lemma search_loop_parents_sat fuel s s' :
  parents_sat (states s) ->
  search_loop pl g goal_id_ blocked_ids fuel s = Some (inr s') ->
  parents_sat (states s').
Proof.
  revert s. induction fuel as [|fuel IH]; intros s Hs; simpl.
  - destruct (getNextNode _) as [[[c n] q']|]; [|intros [= <-]; exact Hs].
    destruct (negb _); [intros [= <-]; exact Hs|discriminate].
  - destruct (getNextNode _) as [[[c n] q']|]; [|intros [= <-]; exact Hs].
    destruct (negb _); [intros [= <-]; exact Hs|].
    destruct (ecost_neq _ _); [apply IH; exact Hs|].
    destruct (isGoal _ _); [intros [= <-]; exact Hs|].
    destruct (expand _ _ _ _ _ _ _) as [err|s2] eqn:E; [discriminate|].
    apply IH. eapply expand_parents_sat; [|exact E]. exact Hs.
Qed.

Lemma backtrack_sat fuel sts goal parent acc es :
  parents_sat sts ->
  (forall e, parent = Some e -> P e) ->
  Forall P acc ->
  backtrack fuel sts goal parent acc = Some es ->
  Forall P es.
Proof.
  intros Hs. revert parent acc.
  induction fuel as [|fuel IH]; intros parent acc Hp Hacc; simpl.
  - destruct parent; [discriminate|]. intros [= <-]. exact Hacc.
  - destruct parent as [e|]; [|intros [= <-]; exact Hacc].
    apply IH.
    + destruct (start e =? goal); [exact Hp|apply Hs].
    + apply Forall_app. split; [exact Hacc|]. constructor; [now apply Hp|constructor].
Qed.

End ParentEdges.

Section RouteEdges.
Import RoutePlanner.

(** Every edge of a returned route is an edge that the pricing accepted. *)
Lemma findRoute_edges_sat (P : DirectionalEdge -> Prop) pl fuel q0 g start_ goal blocked_ids route :
  (forall e sc c,
     getTraversalCost pl g (nodeid (g !!! goal)) e sc blocked_ids = inr (true, c) -> P e) ->
  findRoute pl fuel q0 g start_ goal blocked_ids = Some (inr route) ->
  Forall P (edges route).
Proof.
  intros HP. unfold findRoute.
  destruct g as [|n0 g']; [discriminate|]. set (g := n0 :: g') in *.
  destruct (negb _ || negb _); [discriminate|].
  unfold findShortestGraphTraversal.
  destruct (search_loop _ _ _ _ _ _) as [[err|s]|] eqn:E; [discriminate| |discriminate].
  destruct (_ >=? _)%Z; [discriminate|].
  assert (Hs : parents_sat P (states s)).
  { eapply search_loop_parents_sat; [exact HP| |exact E]. now apply parents_sat_reset. }
  destruct (parent_edge (states s !!! goal)) as [e|] eqn:Ep; [|discriminate].
  destruct (backtrack _ _ _ _ _) as [es|] eqn:Eb; [|discriminate].
  intros [= <-]. simpl. apply Forall_reverse.
  eapply backtrack_sat; [exact Hs| | |exact Eb].
  - intros e' [= <-]. exact (Hs _ _ Ep).
  - constructor.
Qed.

End RouteEdges.

Section SearchClaims.
Import RoutePlanner Samples Paths.

(** C4: no edge of a returned route is withheld by the blocked-id list.
    For every edge of the route, if its id or the id of its destination is
    in the list, then its destination is the goal (by node id, as [isGoal]
    compares): only the edges into the goal are exempt from the veto. *)
Theorem C4_blocked_ids_are_avoided :
  forall pl fuel q0 g start_ goal blocked_ids route,
    findRoute pl fuel q0 g start_ goal blocked_ids = Some (inr route) ->
    Forall (fun e => blocked g e blocked_ids ->
                     nodeid (g !!! end_ e) = nodeid (g !!! goal))
           (edges route).
Proof.
  intros pl fuel q0 g start_ goal blocked_ids route H.
  eapply findRoute_edges_sat; [|exact H].
  intros e sc c Hc Hb. apply getTraversalCost_true in Hc.
  destruct (decide (nodeid (g !!! end_ e) = nodeid (g !!! goal))) as [Heq|Hne];
    [exact Heq|].
  exfalso. apply Hc. split; assumption.
Qed.

(** With the goal's own id (3) and the id of the direct edge (10) blocked,
    the route still ends with an edge into the goal. *)
Lemma C4_blocked_ids_are_avoided_witness :
  findRoute (configure 0 no_plugins) 10 [] four_nodes 0 3 [3; 10]
    = Some (inr {| start_node := 0;
                   edges := [edge 11 0 1 1; edge 12 1 2 1; edge 13 2 3 1];
                   route_cost := Finite 3 |}) /\
  Forall (fun e => blocked four_nodes e [3; 10] ->
                   nodeid (four_nodes !!! end_ e) = nodeid (four_nodes !!! 3))
         [edge 11 0 1 1; edge 12 1 2 1; edge 13 2 3 1].
Proof.
  split; [reflexivity|].
  exact (C4_blocked_ids_are_avoided (configure 0 no_plugins) 10 [] four_nodes 0 3 [3; 10]
           {| start_node := 0;
              edges := [edge 11 0 1 1; edge 12 1 2 1; edge 13 2 3 1];
              route_cost := Finite 3 |} eq_refl).
Defined.

(** C3 at the scenario of the specification with [max_iterations] 4.  The
    fourth iteration pops the goal (node 3) at its final cost 3 and leaves
    the loop by [break]: the loop ends in the same state as under the
    unbounded configuration, with a stale element still scheduled and the
    goal's parent edge recorded.  The check after the loop nevertheless
    raises [TimedOut], where the unbounded configuration returns the
    route.  In the same way a schedule that runs empty on the last
    iteration the bound allows (start 1, goal 0 and bound 1 on the graph
    0 -> 1) is answered with [TimedOut] and not with "no route". *)
Theorem C3_timeout_although_goal_popped :
  search_loop (configure 4 no_plugins) four_nodes 3 [] 10 (setup [] four_nodes 0)
    = search_loop (configure 0 no_plugins) four_nodes 3 [] 10 (setup [] four_nodes 0) /\
  (exists s,
      search_loop (configure 4 no_plugins) four_nodes 3 [] 10 (setup [] four_nodes 0)
        = Some (inr s) /\
      iterations s = 4%Z /\
      queue_ s = [(5%Q, 3)] /\
      parent_edge (states s !!! 3) = Some (edge 13 2 3 1) /\
      integrated_cost (states s !!! 3) = Finite 3) /\
  findRoute (configure 4 no_plugins) 10 [] four_nodes 0 3 [] = Some (inl TimedOut) /\
  findRoute (configure 0 no_plugins) 10 [] four_nodes 0 3 []
    = Some (inr {| start_node := 0;
                   edges := [edge 11 0 1 1; edge 12 1 2 1; edge 13 2 3 1];
                   route_cost := Finite 3 |}) /\
  findRoute (configure 1 no_plugins) 10 [] two_nodes 1 0 [] = Some (inl TimedOut) /\
  findRoute (configure 0 no_plugins) 10 [] two_nodes 1 0 []
    = Some (inl NoValidRouteCouldBeFound).
Proof.
  split; [reflexivity|]. split.
  - eexists. split; [vm_compute; reflexivity|]. repeat split.
  - repeat split; reflexivity.
Qed.

(** C1 as stated fails in five ways.
    - A negative edge cost: the direct edge 0 -> 2 costs 2 and the path
      0 -> 1 -> 2 costs 3 + (-5) = -2; the search pops the goal at cost 2
      and returns the direct edge.
    - A start that is the goal: the empty path joins them, the goal has no
      parent edge and no route is found.
    - A small iteration bound: in the scenario of the specification the
      bound 2 ends the search with the time-out.
    - A sum that is rounded: on 0 -> 1 -> 2 with the costs 16777216 and 1
      the route costs 16777217, and its [route_cost] is 16777216.
    - A schedule that is not empty on entry (an earlier search that was
      left by an exception does not clear it): with two stale elements
      the bound 6, above the number of edges plus one, ends the search of
      the scenario with the time-out. *)
Lemma C1_route_is_not_always_minimal :
  (exists route es,
     findRoute (configure 0 no_plugins) 10 [] negative_detour 0 2 [] = Some (inr route) /\
     edges route = [edge 10 0 2 2] /\
     route_cost route = Finite 2 /\
     is_path negative_detour 0 2 es /\
     (path_cost (fun e => Types.cost (edge_cost e)) es < 2)%Q) /\
  (is_path two_nodes 0 0 [] /\
   findRoute (configure 0 no_plugins) 10 [] two_nodes 0 0 []
     = Some (inl NoValidRouteCouldBeFound)) /\
  (is_path four_nodes 0 3 [edge 10 0 3 5] /\
   findRoute (configure 2 no_plugins) 10 [] four_nodes 0 3 [] = Some (inl TimedOut)) /\
  (exists route,
     findRoute (configure 0 no_plugins) 10 [] rounding_chain 0 2 [] = Some (inr route) /\
     edges route = [edge 10 0 1 16777216; edge 11 1 2 1] /\
     route_cost route = Finite 16777216 /\
     (path_cost (fun e => Types.cost (edge_cost e)) (edges route) == 16777217)%Q) /\
  ((Z.of_nat (num_edges four_nodes) + 1 < max_iterations_ (configure 6 no_plugins))%Z /\
   findRoute (configure 6 no_plugins) 10 [((1 # 2)%Q, 1); ((1 # 2)%Q, 2)] four_nodes 0 3 []
     = Some (inl TimedOut)).
Proof.
  split; [|split; [|split; [|split]]].
  - eexists. exists [edge 11 0 1 3; edge 12 1 2 (-5)].
    split; [reflexivity|]. split; [reflexivity|]. split; [reflexivity|].
    split; [|reflexivity].
    simpl. unfold edge_in. simpl.
    repeat split; eexists; (split; [reflexivity|]); simpl; set_solver.
  - split; reflexivity.
  - split; [|reflexivity].
    simpl. split; [|split; reflexivity].
    eexists. split; [reflexivity|]. simpl. constructor.
  - eexists. split; [vm_compute; reflexivity|].
    split; [reflexivity|]. split; [reflexivity|reflexivity].
  - split; [reflexivity|vm_compute; reflexivity].
Qed.

End SearchClaims.

(** ** The iteration bound *)

Section IterationBound.
Import RoutePlanner Samples.

Lemma expand_iterations pl g goal_id_ blocked_ids curr_cost es s s' :
  expand pl g goal_id_ blocked_ids curr_cost es s = inr s' ->
  iterations s' = iterations s.
Proof.
  revert s. induction es as [|edge es IH]; intros s; simpl.
  - now intros [= <-].
  - destruct (getTraversalCost _ _ _ _ _ _) as [err|[[] tc]]; [discriminate| |].
    + destruct (Float32.add _ _) as [p|]; [destruct (ecost_lt _ _)|];
        intros H; apply IH in H; exact H.
    + intros H. apply IH in H. exact H.
Qed.

(** Below the bound the loop of the code and the unbounded loop agree, and
    the counter grows by at most one for each unit of fuel. *)
Lemma search_loop_below_bound pl g goal_id_ blocked_ids fuel s :
  (iterations s + Z.of_nat fuel < max_iterations_ pl)%Z ->
  search_loop pl g goal_id_ blocked_ids fuel s
    = unbounded_loop pl g goal_id_ blocked_ids fuel s /\
  (forall s', search_loop pl g goal_id_ blocked_ids fuel s = Some (inr s') ->
              (iterations s' <= iterations s + Z.of_nat fuel)%Z).
Proof.
  revert s. induction fuel as [|fuel IH]; intros s Hlt.
  - simpl. destruct (getNextNode _) as [[[c n] q']|].
    + replace (iterations s <? max_iterations_ pl)%Z with true
        by (symmetry; apply Z.ltb_lt; lia).
      split; [reflexivity|discriminate].
    + split; [reflexivity|]. intros s' [= <-]. lia.
  - cbn [search_loop unbounded_loop].
    destruct (getNextNode _) as [[[c n] q']|].
    2:{ split; [reflexivity|]. intros s' [= <-]. lia. }
    replace (iterations s <? max_iterations_ pl)%Z with true
      by (symmetry; apply Z.ltb_lt; lia).
    cbn [negb].
    destruct (ecost_neq _ _).
    { destruct (IH {| states := states s; queue_ := q';
                      traversal_cost_ := traversal_cost_ s;
                      iterations := iterations s + 1 |}) as [IH1 IH2];
        [simpl; lia|].
      split; [exact IH1|]. intros s' Hs'. apply IH2 in Hs'. simpl in Hs'. lia. }
    destruct (isGoal _ _).
    { split; [reflexivity|]. intros s' [= <-]. simpl. lia. }
    destruct (expand _ _ _ _ _ _ _) as [err|s2] eqn:E.
    { split; [reflexivity|discriminate]. }
    apply expand_iterations in E. simpl in E.
    destruct (IH s2) as [IH1 IH2]; [lia|].
    split; [exact IH1|]. intros s' Hs'. apply IH2 in Hs'. lia.
Qed.

(** The only exception raised inside the loop is [NoValidGraph]. *)
Lemma getTraversalCost_error pl g goal_id_ edge sc blocked_ids err :
  getTraversalCost pl g goal_id_ edge sc blocked_ids = inl err -> err = NoValidGraph.
Proof.
  unfold getTraversalCost.
  destruct (bool_decide _ && negb _); [discriminate|].
  destruct (negb _ || _); [|discriminate].
  destruct (Qeq_bool _ _); [|discriminate]. now intros [= <-].
Qed.

Lemma expand_error pl g goal_id_ blocked_ids curr_cost es s err :
  expand pl g goal_id_ blocked_ids curr_cost es s = inl err -> err = NoValidGraph.
Proof.
  revert s. induction es as [|edge es IH]; intros s; simpl; [discriminate|].
  destruct (getTraversalCost _ _ _ _ _ _) as [err'|[[] tc]] eqn:E.
  - intros [= <-]. exact (getTraversalCost_error _ _ _ _ _ _ _ E).
  - destruct (Float32.add _ _) as [p|]; [destruct (ecost_lt _ _)|]; apply IH.
  - apply IH.
Qed.

Lemma search_loop_error pl g goal_id_ blocked_ids fuel s err :
  search_loop pl g goal_id_ blocked_ids fuel s = Some (inl err) -> err = NoValidGraph.
Proof.
  revert s. induction fuel as [|fuel IH]; intros s; simpl.
  - destruct (getNextNode _) as [[[c n] q']|]; [|discriminate].
    destruct (negb _); discriminate.
  - destruct (getNextNode _) as [[[c n] q']|]; [|discriminate].
    destruct (negb _); [discriminate|].
    destruct (ecost_neq _ _); [apply IH|].
    destruct (isGoal _ _); [discriminate|].
    destruct (expand _ _ _ _ _ _ _) as [err'|s2] eqn:E; [|apply IH].
    intros [= <-]. exact (expand_error _ _ _ _ _ _ _ _ E).
Qed.

Lemma to_int_le_INT_MAX (z : Z) : (to_int z <= INT_MAX)%Z.
Proof.
  unfold to_int, INT_MAX.
  pose proof (Z.mod_pos_bound (z + 2 ^ 31) (2 ^ 32) eq_refl). lia.
Qed.

(** C9, as the code has it: a bound of zero is replaced by 2147483647, the
    largest value of an [int], and a search that leaves its loop within
    fewer iterations than that is limited by the schedule and by the goal
    alone: it ends as the unbounded search of the specification does, and
    never with the time-out. *)
Theorem C9_zero_bound_is_INT_MAX :
  forall scorer fuel q0 g start_ goal blocked_ids,
    (Z.of_nat fuel < INT_MAX)%Z ->
    max_iterations_ (configure 0 scorer) = 2147483647%Z /\
    (forall z, (to_int z <= max_iterations_ (configure 0 scorer))%Z) /\
    findShortestGraphTraversal (configure 0 scorer) fuel q0 g start_ goal blocked_ids
      = unbounded_traversal (configure 0 scorer) fuel q0 g start_ goal blocked_ids /\
    findShortestGraphTraversal (configure 0 scorer) fuel q0 g start_ goal blocked_ids
      <> Some (inl TimedOut).
Proof.
  intros scorer fuel q0 g start_ goal blocked_ids Hfuel.
  split; [reflexivity|]. split; [intros z; apply to_int_le_INT_MAX|].
  unfold findShortestGraphTraversal, unbounded_traversal.
  destruct (search_loop_below_bound (configure 0 scorer) g (nodeid (g !!! goal))
              blocked_ids fuel (setup q0 g start_)) as [Heq Hle].
  { exact Hfuel. }
  rewrite <- Heq.
  destruct (search_loop _ _ _ _ _ _) as [[err|s]|] eqn:E.
  - split; [reflexivity|]. apply search_loop_error in E. subst err. discriminate.
  - specialize (Hle s eq_refl). simpl in Hle.
    replace (iterations s >=? max_iterations_ (configure 0 scorer))%Z with false.
    + split; [reflexivity|discriminate].
    + symmetry. rewrite Z.geb_leb. apply Z.leb_gt.
      change (max_iterations_ _) with INT_MAX. lia.
  - split; [reflexivity|discriminate].
Qed.

Lemma C9_zero_bound_is_INT_MAX_witness :
  max_iterations_ (configure 0 no_plugins) = 2147483647%Z /\
  (forall z, (to_int z <= max_iterations_ (configure 0 no_plugins))%Z) /\
  findShortestGraphTraversal (configure 0 no_plugins) 10 [] four_nodes 0 3 []
    = unbounded_traversal (configure 0 no_plugins) 10 [] four_nodes 0 3 [] /\
  findShortestGraphTraversal (configure 0 no_plugins) 10 [] four_nodes 0 3 []
    <> Some (inl TimedOut).
Proof.
  apply (C9_zero_bound_is_INT_MAX no_plugins 10 [] four_nodes 0 3 []).
  reflexivity.
Defined.

End IterationBound.

(** ** Shortest routes: auxiliary facts on the schedule and on sums *)

Section Auxiliary.
Import RoutePlanner.

Lemma pop_min_spec (x : NodeElement) (l : NodeQueue) m rest :
  pop_min x l = (m, rest) ->
  x :: l ≡ₚ m :: rest /\ (forall y, y ∈ x :: l -> (fst m <= fst y)%Q).
Proof.
  revert x m rest. induction l as [|y l IH]; intros x m rest; simpl.
  - intros [= <- <-]. split; [reflexivity|].
    intros y Hy. apply list_elem_of_singleton in Hy. subst. apply Qle_refl.
  - destruct (pop_min y l) as [m' rest'] eqn:E.
    destruct (IH _ _ _ E) as [Hperm Hmin].
    destruct (Qle_bool (fst x) (fst m')) eqn:Ele.
    + intros [= <- <-]. split; [reflexivity|].
      apply Qle_bool_iff in Ele. intros z Hz.
      apply elem_of_cons in Hz as [->|Hz]; [apply Qle_refl|].
      eapply Qle_trans; [exact Ele|]. now apply Hmin.
    + intros [= <- <-]. split.
      * rewrite Hperm. apply Permutation_swap.
      * apply Qle_bool_false in Ele. intros z Hz.
        apply elem_of_cons in Hz as [->|Hz]; [now apply Qlt_le_weak|].
        now apply Hmin.
Qed.

Lemma sum_seq_ext (f f' : nat -> nat) (l : list nat) :
  (forall v, v ∈ l -> f v = f' v) ->
  sum_list (f <$> l) = sum_list (f' <$> l).
Proof.
  induction l as [|a l IH]; intros H; csimpl; [reflexivity|].
  rewrite H by constructor. rewrite IH; [reflexivity|].
  intros v Hv. apply H. now constructor.
Qed.

Lemma sum_seq_drop (f f' : nat -> nat) (l : list nat) (u : nat) :
  NoDup l -> u ∈ l -> f' u = 0 ->
  (forall v, v ∈ l -> v <> u -> f v = f' v) ->
  sum_list (f <$> l) = sum_list (f' <$> l) + f u.
Proof.
  induction l as [|a l IH]; intros Hnd Hu H0 Hext; [inversion Hu|].
  apply NoDup_cons in Hnd as [Ha Hnd]. csimpl.
  destruct (decide (a = u)) as [->|Hne].
  - rewrite H0. rewrite (sum_seq_ext f f' l); [lia|].
    intros v Hv. apply Hext; [now constructor|]. intros ->. contradiction.
  - apply elem_of_cons in Hu as [->|Hu]; [congruence|].
    rewrite (Hext a) by (try constructor; assumption).
    rewrite IH; [lia|assumption..|].
    intros v Hv. apply Hext. now constructor.
Qed.

Lemma map_lookup_total_seq {A B} `{Inhabited A} (f : A -> B) (l : list A) :
  (fun v => f (l !!! v)) <$> seq 0 (length l) = f <$> l.
Proof.
  apply list_eq. intros i. rewrite !list_lookup_fmap.
  destruct (decide (i < length l)) as [Hlt|Hge].
  - rewrite lookup_seq_lt by exact Hlt. simpl.
    destruct (lookup_lt_is_Some_2 l i Hlt) as [a Ha].
    rewrite Ha. simpl. f_equal. f_equal. now apply list_lookup_total_correct.
  - rewrite lookup_seq_ge by lia. rewrite lookup_ge_None_2 by lia. reflexivity.
Qed.

Lemma sum_list_fmap_foldr {A} (f : A -> nat) (l : list A) :
  sum_list (f <$> l) = foldr (fun a acc => f a + acc) 0 l.
Proof.
  induction l as [|a l IH]; [reflexivity|]. csimpl. now rewrite IH.
Qed.

End Auxiliary.

(** ** Graphs whose edges are stored where they start *)

Section Stored.
Import RoutePlanner Paths.

Variable g : Graph.
Hypothesis Hstored : edges_stored g.

Lemma neighbors_edge v e :
  v < length g -> e ∈ neighbors (g !!! v) ->
  edge_in g e /\ start e = v /\ end_ e < length g.
Proof.
  intros Hv He. destruct (lookup_lt_is_Some_2 g v Hv) as [n Hn].
  rewrite (list_lookup_total_correct _ _ _ Hn) in He.
  destruct (Hstored v n e Hn He) as [Hs He'].
  split; [|split; assumption]. exists n. rewrite Hs. split; assumption.
Qed.

Lemma edge_in_wf e : edge_in g e -> start e < length g /\ end_ e < length g.
Proof.
  intros [n [Hn He]].
  destruct (Hstored _ _ _ Hn He) as [_ H]. split; [|exact H].
  now apply lookup_lt_Some in Hn.
Qed.

Lemma is_path_app a b c es1 es2 :
  is_path g a b es1 -> is_path g b c es2 -> is_path g a c (es1 ++ es2).
Proof.
  revert a. induction es1 as [|e es1 IH]; intros a H1 H2.
  - simpl in H1. now subst.
  - destruct H1 as (Hin & Hs & Hrest). simpl. auto.
Qed.

End Stored.

(** ** Shortest routes: the search on a graph with prices that are not
    negative and sums that are not rounded *)

Section Dijkstra.
Import RoutePlanner Paths.

Variables (pl : Planner) (g : Graph) (start_ goal : NodePtr) (w : DirectionalEdge -> Q).

Hypothesis Hwf : wf_graph g.
Hypothesis Hstart : start_ < length g.
Hypothesis Hgoal : goal < length g.
Hypothesis Hprice :
  forall e sc, edge_in g e ->
    getTraversalCost pl g (nodeid (g !!! goal)) e sc [] = inr (true, w e) /\ (0 <= w e)%Q.
Hypothesis Hexact : exact_sums g w start_ goal.

Local Abbreviation relaxed := (Invariants.relaxed g w).
Local Abbreviation Core := (Invariants.Core g start_ w).
Local Abbreviation Inner := (Invariants.Inner g start_ w).
Local Abbreviation Inv := (Invariants.Inv g start_ w).
Local Abbreviation Hist := (Invariants.Hist g goal).
Local Abbreviation outdeg := (Invariants.outdeg g).
Local Abbreviation pending := (Invariants.pending g).
Local Abbreviation measure := (Invariants.measure g).
Local Abbreviation Final := (Invariants.Final g start_ goal w).

Lemma dist_finite_lt sts v d : dist sts v = Finite d -> v < length sts.
Proof.
  intros H. destruct (decide (v < length sts)) as [Hlt|Hge]; [exact Hlt|].
  unfold dist in H. rewrite list_lookup_total_alt, lookup_ge_None_2 in H by lia.
  discriminate.
Qed.

Lemma relax_at sts e p tc :
  end_ e < length sts ->
  relax sts e p tc !!! end_ e =
    {| parent_edge := Some e; integrated_cost := Finite p; traversal_cost := Finite tc |}.
Proof. intros H. unfold relax. now apply list_lookup_total_insert_eq. Qed.

Lemma relax_other sts e p tc v :
  v <> end_ e -> relax sts e p tc !!! v = sts !!! v.
Proof. intros H. unfold relax. apply list_lookup_total_insert_ne. congruence. Qed.

Lemma dist_relax_at sts e p tc :
  end_ e < length sts -> dist (relax sts e p tc) (end_ e) = Finite p.
Proof. intros H. unfold dist. now rewrite relax_at. Qed.

Lemma dist_relax_other sts e p tc v :
  v <> end_ e -> dist (relax sts e p tc) v = dist sts v.
Proof. intros H. unfold dist. now rewrite relax_other. Qed.

(** Relaxing never raises a cost. *)
Lemma dist_relax_le sts e p tc v d :
  end_ e < length sts ->
  ecost_lt p (dist sts (end_ e)) = true ->
  dist sts v = Finite d ->
  exists d', dist (relax sts e p tc) v = Finite d' /\ (d' <= d)%Q.
Proof.
  intros Hlt Hp Hd. destruct (decide (v = end_ e)) as [->|Hne].
  - rewrite dist_relax_at by exact Hlt. exists p. split; [reflexivity|].
    rewrite Hd in Hp. simpl in Hp. apply Qlt_bool_iff in Hp. lra.
  - rewrite dist_relax_other by exact Hne. exists d. split; [exact Hd|apply Qle_refl].
Qed.

Lemma isGoal_iff v :
  v < length g -> isGoal (nodeid (g !!! goal)) (g !!! v) = true <-> v = goal.
Proof.
  intros Hv. unfold isGoal. rewrite Nat.eqb_eq. split; [|now intros ->].
  destruct (lookup_lt_is_Some_2 g v Hv) as [n Hn].
  destruct (lookup_lt_is_Some_2 g goal Hgoal) as [m Hm].
  rewrite (list_lookup_total_correct _ _ _ Hn), (list_lookup_total_correct _ _ _ Hm).
  destruct Hwf as [_ Hids]. now apply Hids.
Qed.

Lemma path_cost_cons e es : path_cost w (e :: es) = (w e + path_cost w es)%Q.
Proof. reflexivity. Qed.

Lemma path_cost_app es1 es2 :
  (path_cost w (es1 ++ es2) == path_cost w es1 + path_cost w es2)%Q.
Proof.
  induction es1 as [|e es1 IH].
  - change (path_cost w ([] ++ es2)) with (path_cost w es2).
    change (path_cost w []) with 0%Q. lra.
  - rewrite <- app_comm_cons, !path_cost_cons, IH. lra.
Qed.

Lemma path_cost_nonneg es a b : is_path g a b es -> (0 <= path_cost w es)%Q.
Proof.
  revert a. induction es as [|e es IH]; intros a Hp.
  - change (path_cost w []) with 0%Q. lra.
  - destruct Hp as (Hin & _ & Hrest). rewrite path_cost_cons.
    destruct (Hprice e 0%Q Hin) as [_ Hw]. specialize (IH _ Hrest). lra.
Qed.

Lemma core_relax sts e p tc du :
  Core sts ->
  edge_in g e ->
  dist sts (start e) = Finite du ->
  (p == du + w e)%Q ->
  ecost_lt p (dist sts (end_ e)) = true ->
  Core (relax sts e p tc).
Proof.
  intros HC He Hdu Hp Hlt.
  destruct (edge_in_wf g (proj1 Hwf) e He) as [Hs Ht].
  assert (Hlen : end_ e < length sts) by (rewrite (core_len HC); exact Ht).
  destruct (Hprice e 0%Q He) as [_ Hw].
  pose proof (core_nonneg HC _ _ Hdu) as Hdu0.
  assert (Hne_u : start e <> end_ e).
  { intros Heq. rewrite <- Heq, Hdu in Hlt. simpl in Hlt.
    apply Qlt_bool_iff in Hlt. lra. }
  assert (Hne_s : start_ <> end_ e).
  { intros Heq. rewrite <- Heq in Hlt. rewrite (proj1 (core_start HC)) in Hlt.
    simpl in Hlt. apply Qlt_bool_iff in Hlt. lra. }
  constructor.
  - unfold relax. rewrite length_insert. apply (core_len HC).
  - rewrite dist_relax_other, relax_other by exact Hne_s. apply (core_start HC).
  - intros v d. destruct (decide (v = end_ e)) as [->|Hne].
    + rewrite dist_relax_at by exact Hlen. intros [= <-]. lra.
    + rewrite dist_relax_other by exact Hne. apply (core_nonneg HC).
  - intros v e'. destruct (decide (v = end_ e)) as [->|Hne].
    + rewrite relax_at by exact Hlen. simpl. intros [= <-].
      split; [exact He|]. split; [reflexivity|].
      exists p, du. rewrite dist_relax_at by exact Hlen.
      rewrite dist_relax_other by exact Hne_u.
      split; [reflexivity|]. split; [exact Hdu|lra].
    + rewrite relax_other by exact Hne. intros Hpar.
      destruct (core_par HC _ _ Hpar) as (He' & Hend & d & d' & Hd & Hd' & Hle).
      split; [exact He'|]. split; [exact Hend|].
      rewrite dist_relax_other by exact Hne.
      destruct (dist_relax_le sts e p tc _ _ Hlen Hlt Hd') as (d'' & Hd'' & Hle').
      exists d, d''. split; [exact Hd|]. split; [exact Hd''|]. lra.
  - intros v d. destruct (decide (v = end_ e)) as [->|Hne].
    + intros _ _. rewrite relax_at by exact Hlen. simpl. eauto.
    + rewrite dist_relax_other, relax_other by exact Hne. apply (core_fin HC).
  - intros v d. destruct (decide (v = end_ e)) as [->|Hne].
    + rewrite dist_relax_at by exact Hlen. intros [= <-].
      destruct (core_path HC _ _ Hdu) as (es & Hes & Hcost).
      exists (es ++ [e]). split.
      * apply (is_path_app g _ (start e)); [exact Hes|]. simpl. auto.
      * rewrite path_cost_app, Hcost. change (path_cost w [e]) with (w e + 0)%Q. lra.
    + rewrite dist_relax_other by exact Hne. apply (core_path HC).
Qed.

Lemma relaxed_relax sts e p tc v :
  end_ e < length sts ->
  ecost_lt p (dist sts (end_ e)) = true ->
  v <> end_ e ->
  relaxed sts v -> relaxed (relax sts e p tc) v.
Proof.
  intros Hlen Hlt Hne (d & Hd & Hrel). exists d.
  rewrite dist_relax_other by exact Hne. split; [exact Hd|].
  intros e' He'. destruct (Hrel e' He') as (d2 & Hd2 & Hle).
  destruct (dist_relax_le sts e p tc _ _ Hlen Hlt Hd2) as (d2' & Hd2' & Hle').
  exists d2'. split; [exact Hd2'|]. lra.
Qed.

Lemma inner_keep X u c seen sts q e p :
  Inner X u c seen sts q ->
  (p == c + w e)%Q ->
  ecost_lt p (dist sts (end_ e)) = false ->
  Inner X u c (seen ++ [e]) sts q.
Proof.
  intros HI Hp Hlt. destruct HI as [HC HQ HX HL (du & Hdu & Hc & Hseen)].
  constructor; try assumption.
  exists du. split; [exact Hdu|]. split; [exact Hc|].
  intros e' He'. apply elem_of_app in He' as [He'|He'].
  - now apply Hseen.
  - apply list_elem_of_singleton in He'. subst e'.
    destruct (dist sts (end_ e)) as [d2|]; [|discriminate].
    simpl in Hlt. apply Qlt_bool_false in Hlt.
    exists d2. split; [reflexivity|]. lra.
Qed.

Lemma inner_relax X u c seen sts q e tc p :
  u < length g ->
  e ∈ neighbors (g !!! u) ->
  Inner X u c seen sts q ->
  (p == c + w e)%Q ->
  ecost_lt p (dist sts (end_ e)) = true ->
  Inner X u c (seen ++ [e]) (relax sts e p tc) (addNode p (end_ e) q) /\
  (end_ e ∉ X) /\ end_ e <> u.
Proof.
  intros Hu He HI Hp Hlt. destruct HI as [HC HQ HX HL (du & Hdu & Hc & Hseen)].
  destruct (neighbors_edge g (proj1 Hwf) u e Hu He) as (Hin & Hs & Ht).
  destruct (Hprice e 0%Q Hin) as [_ Hw].
  assert (Hlen : end_ e < length sts) by (rewrite (core_len HC); exact Ht).
  assert (Hne_u : end_ e <> u).
  { intros Heq. rewrite Heq, Hdu in Hlt. simpl in Hlt.
    apply Qlt_bool_iff in Hlt. lra. }
  assert (HnX : end_ e ∉ X).
  { intros Hx. destruct (HX _ Hx) as (_ & d & Hd & Hle).
    rewrite Hd in Hlt. simpl in Hlt. apply Qlt_bool_iff in Hlt. lra. }
  split; [|split; [exact HnX|exact Hne_u]]. constructor.
  - apply (core_relax sts e _ tc du HC Hin); [now rewrite Hs| lra | exact Hlt].
  - intros c' v Hv. apply elem_of_cons in Hv as [[= -> ->]|Hv].
    + split; [lra|]. exists p.
      rewrite dist_relax_at by exact Hlen. split; [reflexivity|lra].
    + destruct (HQ _ _ Hv) as (Hcc & d & Hd & Hle). split; [exact Hcc|].
      destruct (dist_relax_le sts e p tc _ _ Hlen Hlt Hd) as (d' & Hd' & Hle').
      exists d'. split; [exact Hd'|]. lra.
  - intros x Hx. destruct (HX _ Hx) as (Hrel & d & Hd & Hle).
    assert (Hne : x <> end_ e) by (intros ->; contradiction).
    split; [now apply relaxed_relax|].
    exists d. rewrite dist_relax_other by exact Hne. auto.
  - intros v d. destruct (decide (v = end_ e)) as [->|Hne].
    + rewrite dist_relax_at by exact Hlen. intros [= <-] _. left. constructor.
    + rewrite dist_relax_other by exact Hne. intros Hd Hvu.
      destruct (HL _ _ Hd Hvu) as [Hq|Hx]; [left; now constructor|right; exact Hx].
  - exists du. rewrite dist_relax_other by (intros Heq; now apply Hne_u).
    split; [exact Hdu|]. split; [exact Hc|].
    intros e' He'. apply elem_of_app in He' as [He'|He'].
    + destruct (Hseen _ He') as (d2 & Hd2 & Hle).
      destruct (dist_relax_le sts e p tc _ _ Hlen Hlt Hd2) as (d' & Hd' & Hle').
      exists d'. split; [exact Hd'|]. lra.
    + apply list_elem_of_singleton in He'. subst e'.
      exists p. rewrite dist_relax_at by exact Hlen.
      split; [reflexivity|lra].
Qed.

(** The order of expansion while the edges of its latest node are walked. *)
Lemma hist_relax X sts e p tc :
  Hist X sts -> end_ e ∉ X -> start e ∈ X -> Hist X (relax sts e p tc).
Proof.
  intros [Hnd Hr Hg Hp Ho] HnX Hs. constructor; try assumption.
  - intros v e'. unfold relax.
    destruct (lookup_total_insert_cases sts (end_ e) v
                {| parent_edge := Some e; integrated_cost := Finite p;
                   traversal_cost := Finite tc |}) as [-> | ->].
    + simpl. now intros [= <-].
    + apply Hp.
  - intros X1 x X2 e' HX. rewrite relax_other; [now apply (Ho X1)|].
    intros ->. apply HnX. rewrite HX. apply elem_of_app. right. constructor.
Qed.

Lemma hist_cons X sts u :
  Hist X sts -> u < length g -> u ∉ X -> u <> goal -> Hist (u :: X) sts.
Proof.
  intros [Hnd Hr Hg Hp Ho] Hu HuX Hug. constructor.
  - now constructor.
  - intros x Hx. apply elem_of_cons in Hx as [->|Hx]; [exact Hu|now apply Hr].
  - intros Hgx. apply elem_of_cons in Hgx as [->|Hgx]; [now apply Hug|now apply Hg].
  - intros v e Hpar. apply list_elem_of_further. now apply (Hp v).
  - intros X1 x X2 e HX Hpar. destruct X1 as [|y X1]; simpl in HX.
    + injection HX as -> ->. now apply (Hp x).
    + injection HX as -> ->. now apply (Ho X1 x).
Qed.

Lemma expand_inner X u c :
  u < length g ->
  (forall e, e ∈ neighbors (g !!! u) ->
     exists p, Float32.add c (w e) = Finite p /\ (p == c + w e)%Q) ->
  forall es seen s,
    Inner X u c seen (states s) (queue_ s) ->
    Hist (u :: X) (states s) ->
    (forall e, e ∈ es -> e ∈ neighbors (g !!! u)) ->
    exists s',
      expand pl g (nodeid (g !!! goal)) [] c es s = inr s' /\
      Inner X u c (seen ++ es) (states s') (queue_ s') /\
      Hist (u :: X) (states s') /\
      length (queue_ s') <= length (queue_ s) + length es /\
      iterations s' = iterations s.
Proof.
  intros Hu Hex. induction es as [|e es IH]; intros seen s HI HH Hes.
  - exists s. simpl. rewrite app_nil_r. split; [reflexivity|]. split; [exact HI|].
    split; [exact HH|]. lia.
  - assert (He : e ∈ neighbors (g !!! u)) by (apply Hes; constructor).
    destruct (neighbors_edge g (proj1 Hwf) u e Hu He) as (Hin & Hse & _).
    destruct (Hprice e (traversal_cost_ s) Hin) as [Hcost _].
    destruct (Hex e He) as (p & Hadd & Hp).
    cbn [expand]. rewrite Hcost. cbv iota beta. rewrite Hadd.
    replace (seen ++ e :: es) with ((seen ++ [e]) ++ es)
      by (now rewrite <- app_assoc).
    destruct (ecost_lt p (integrated_cost (states s !!! end_ e))) eqn:Hlt.
    + destruct (inner_relax X u c seen _ _ e (w e) _ Hu He HI Hp Hlt)
        as (HI' & HnX & Hne).
      destruct (IH (seen ++ [e])
                  {| states := relax (states s) e p (w e);
                     queue_ := addNode p (end_ e) (queue_ s);
                     traversal_cost_ := w e;
                     iterations := iterations s |})
        as (s' & Hs' & HI'' & HH' & Hq & Hit); [exact HI'| | |].
      { cbn [states]. apply hist_relax; [exact HH| |rewrite Hse; constructor].
        intros Hx. apply elem_of_cons in Hx as [Hx|Hx]; [now apply Hne|now apply HnX]. }
      { intros e' He'. apply Hes. now constructor. }
      exists s'. split; [exact Hs'|]. split; [exact HI''|]. split; [exact HH'|].
      simpl in Hq, Hit. simpl. split; [lia|exact Hit].
    + pose proof (inner_keep X u c seen _ _ e _ HI Hp Hlt) as HI'.
      destruct (IH (seen ++ [e])
                  {| states := states s; queue_ := queue_ s;
                     traversal_cost_ := w e; iterations := iterations s |})
        as (s' & Hs' & HI'' & HH' & Hq & Hit); [exact HI'|exact HH| |].
      { intros e' He'. apply Hes. now constructor. }
      exists s'. split; [exact Hs'|]. split; [exact HI''|]. split; [exact HH'|].
      simpl in Hq, Hit. simpl. split; [lia|exact Hit].
Qed.

(** A node that was expanded before is walked again without any effect. *)
Lemma expand_relaxed u c :
  u < length g ->
  (forall e, e ∈ neighbors (g !!! u) ->
     exists p, Float32.add c (w e) = Finite p /\ (p == c + w e)%Q) ->
  forall es s,
    relaxed (states s) u ->
    (exists du, dist (states s) u = Finite du /\ (c == du)%Q) ->
    (forall e, e ∈ es -> e ∈ neighbors (g !!! u)) ->
    exists s',
      expand pl g (nodeid (g !!! goal)) [] c es s = inr s' /\
      states s' = states s /\ queue_ s' = queue_ s /\ iterations s' = iterations s.
Proof.
  intros Hu Hex. induction es as [|e es IH]; intros s Hrel Hc Hes.
  - exists s. auto.
  - assert (He : e ∈ neighbors (g !!! u)) by (apply Hes; constructor).
    destruct (neighbors_edge g (proj1 Hwf) u e Hu He) as (Hin & _ & _).
    destruct (Hprice e (traversal_cost_ s) Hin) as [Hcost _].
    destruct (Hex e He) as (p & Hadd & Hp).
    cbn [expand]. rewrite Hcost. cbv iota beta. rewrite Hadd.
    destruct Hrel as (d & Hd & Hall). destruct Hc as (du & Hdu & Hcdu).
    assert (d = du) by congruence. subst d.
    destruct (Hall e He) as (d2 & Hd2 & Hle).
    fold (dist (states s) (end_ e)). rewrite Hd2. cbn [ecost_lt].
    replace (Qlt_bool p d2) with false
      by (symmetry; apply Qlt_bool_false; lra).
    destruct (IH {| states := states s; queue_ := queue_ s;
                    traversal_cost_ := w e; iterations := iterations s |})
      as (s' & Hs' & H1 & H2 & H3).
    + exists du. split; [exact Hdu|exact Hall].
    + exists du. split; [exact Hdu|exact Hcdu].
    + intros e' He'. apply Hes. now constructor.
    + exists s'. auto.
Qed.

Lemma nonstale_cost sts c u d :
  dist sts u = Finite d -> ecost_neq c (dist sts u) = false -> (c == d)%Q.
Proof.
  intros Hd H. rewrite Hd in H. simpl in H. apply negb_false_iff in H.
  now apply Qeq_bool_iff.
Qed.

Lemma inv_pop X sts q c u q1 :
  Inv X sts q ->
  q ≡ₚ (c, u) :: q1 ->
  u ∈ X \/ ecost_neq c (dist sts u) = true ->
  Inv X sts q1.
Proof.
  intros [HC HQ HX HL] Hperm Hu.
  assert (Hsub : forall z, z ∈ q1 -> z ∈ q).
  { intros z Hz. rewrite Hperm. now constructor. }
  constructor.
  - exact HC.
  - intros c' v Hv. apply HQ. now apply Hsub.
  - intros x Hx. destruct (HX x Hx) as (Hrel & d & Hd & Hle).
    split; [exact Hrel|]. exists d. split; [exact Hd|].
    intros c' y Hy. eapply Hle. apply Hsub. exact Hy.
  - intros v d Hd. destruct (HL v d Hd) as [Hq|Hx]; [|right; exact Hx].
    rewrite Hperm in Hq. apply elem_of_cons in Hq as [[= -> ->]|Hq]; [|left; exact Hq].
    destruct Hu as [Hu|Hu]; [right; exact Hu|].
    rewrite Hd in Hu. simpl in Hu. rewrite Qeq_bool_same in Hu. discriminate.
Qed.

Lemma inner_of_inv X sts q c u q1 du :
  Inv X sts q ->
  q ≡ₚ (c, u) :: q1 ->
  (forall y, y ∈ q -> (c <= fst y)%Q) ->
  dist sts u = Finite du -> (c == du)%Q ->
  Inner X u c [] sts q1.
Proof.
  intros [HC HQ HX HL] Hperm Hmin Hdu Hc.
  assert (Hsub : forall z, z ∈ q1 -> z ∈ q).
  { intros z Hz. rewrite Hperm. now constructor. }
  assert (Hcu : (c, u) ∈ q) by (rewrite Hperm; constructor).
  constructor.
  - exact HC.
  - intros c' v Hv. split; [apply (Hmin (c', v)); now apply Hsub|].
    apply HQ. now apply Hsub.
  - intros x Hx. destruct (HX x Hx) as (Hrel & d & Hd & Hle).
    split; [exact Hrel|]. exists d. split; [exact Hd|]. exact (Hle _ _ Hcu).
  - intros v d Hd Hne. destruct (HL v d Hd) as [Hq|Hx]; [|right; exact Hx].
    rewrite Hperm in Hq. apply elem_of_cons in Hq as [[= -> ->]|Hq];
      [contradiction|left; exact Hq].
  - exists du. split; [exact Hdu|]. split; [exact Hc|].
    intros e He. inversion He.
Qed.

Lemma inv_of_inner X sts q c u :
  Inner X u c (neighbors (g !!! u)) sts q -> Inv (u :: X) sts q.
Proof.
  intros [HC HQ HX HL (du & Hdu & Hc & Hseen)]. constructor.
  - exact HC.
  - intros c' v Hv. now apply HQ.
  - intros x Hx. apply elem_of_cons in Hx as [->|Hx].
    + split; [exists du; split; [exact Hdu|exact Hseen]|].
      exists du. split; [exact Hdu|]. intros c' y Hy.
      destruct (HQ _ _ Hy) as [Hle _]. lra.
    + destruct (HX x Hx) as (Hrel & d & Hd & Hle). split; [exact Hrel|].
      exists d. split; [exact Hd|]. intros c' y Hy.
      destruct (HQ _ _ Hy) as [Hle' _]. lra.
  - intros v d Hd. destruct (decide (v = u)) as [->|Hne]; [right; constructor|].
    destruct (HL v d Hd Hne) as [Hq|Hx]; [left; exact Hq|right; now constructor].
Qed.

(** Every path out of a reached node is bounded from below by the cost of
    its end or by an element of the schedule. *)
Lemma path_lower_bound X sts q :
  Inv X sts q ->
  forall es a b da,
    dist sts a = Finite da ->
    is_path g a b es ->
    (exists d, dist sts b = Finite d /\ (d <= da + path_cost w es)%Q) \/
    (exists c y, (c, y) ∈ q /\ (c <= da + path_cost w es)%Q).
Proof.
  intros HI. induction es as [|e es IH]; intros a b da Hda Hp.
  - simpl in Hp. subst b. left. exists da. split; [exact Hda|].
    change (path_cost w []) with 0%Q. lra.
  - pose proof (path_cost_nonneg _ _ _ Hp) as Hnn.
    destruct Hp as (Hin & Hs & Hrest). rewrite path_cost_cons in *.
    destruct (inv_lc HI a da Hda) as [Hq|Hx].
    + right. exists da, a. split; [exact Hq|lra].
    + destruct (inv_X HI a Hx) as ((d & Hd & Hall) & _).
      assert (d = da) by congruence. subst d.
      assert (He : e ∈ neighbors (g !!! a)).
      { destruct Hin as (n & Hn & He). rewrite Hs in Hn.
        now rewrite (list_lookup_total_correct _ _ _ Hn). }
      destruct (Hall e He) as (d2 & Hd2 & Hle).
      destruct (IH (end_ e) b d2 Hd2 Hrest) as [(d & Hdb & Hb)|(c & y & Hy & Hb)].
      * left. exists d. split; [exact Hdb|lra].
      * right. exists c, y. split; [exact Hy|lra].
Qed.

(** The cost at which the least element of the schedule is popped, when
    it is not stale, is the cost of a cheapest path to its node, and no
    path to the goal is cheaper: the sums formed with it are exact. *)
Lemma pop_exact X sts q c u q1 du :
  Inv X sts q ->
  Hist X sts ->
  q ≡ₚ (c, u) :: q1 ->
  (forall y, y ∈ q -> (c <= fst y)%Q) ->
  dist sts u = Finite du -> (c == du)%Q ->
  u <> goal ->
  forall e, e ∈ neighbors (g !!! u) ->
    exists p, Float32.add c (w e) = Finite p /\ (p == c + w e)%Q.
Proof.
  intros HI HH Hperm Hmin Hdu Hc Hug e He.
  pose proof (proj1 (core_start (inv_core HI))) as H0.
  apply (Hexact u c e Hug); [split| |exact He].
  - destruct (core_path (inv_core HI) _ _ Hdu) as (es & Hes & Hcost).
    exists es. split; [exact Hes|]. rewrite Hcost. symmetry. exact Hc.
  - intros es Hes.
    destruct (path_lower_bound X sts q HI es start_ u 0%Q H0 Hes)
      as [(d & Hd & Hle)|(c' & y & Hy & Hle)].
    + assert (d = du) by congruence. subst d. lra.
    + pose proof (Hmin _ Hy) as Hcy. simpl in Hcy. lra.
  - intros es Hes.
    destruct (path_lower_bound X sts q HI es start_ goal 0%Q H0 Hes)
      as [(d & Hd & Hle)|(c' & y & Hy & Hle)].
    + destruct (inv_lc HI _ _ Hd) as [Hq|Hx].
      * pose proof (Hmin _ Hq) as Hcy. simpl in Hcy. lra.
      * exfalso. exact (hist_goal HH Hx).
    + pose proof (Hmin _ Hy) as Hcy. simpl in Hcy. lra.
Qed.

(** ** The number of iterations *)

Lemma pending_nil : pending [] = num_edges g.
Proof.
  unfold Invariants.pending, num_edges.
  rewrite (sum_seq_ext _ (fun v => length (neighbors (g !!! v)))).
  - rewrite (map_lookup_total_seq (fun n => length (neighbors n)) g).
    apply sum_list_fmap_foldr.
  - intros v _. case_decide as Hc; [inversion Hc|reflexivity].
Qed.

Lemma pending_cons u X :
  u < length g -> u ∉ X -> pending X = pending (u :: X) + outdeg u.
Proof.
  intros Hu HX. unfold Invariants.pending.
  rewrite (sum_seq_drop _ (fun v => if decide (v ∈ u :: X) then 0 else outdeg v) _ u).
  - case_decide; [contradiction|reflexivity].
  - apply NoDup_seq.
  - apply elem_of_seq. lia.
  - case_decide as Hc; [reflexivity|]. exfalso. apply Hc. constructor.
  - intros v _ Hne. repeat case_decide; try reflexivity.
    + exfalso. apply H0. now constructor.
    + apply elem_of_cons in H0 as [->|H0]; contradiction.
Qed.

Lemma final_of_goal X sts q c q1 :
  Inv X sts q ->
  Hist X sts ->
  q ≡ₚ (c, goal) :: q1 ->
  (forall y, y ∈ q -> (c <= fst y)%Q) ->
  ecost_neq c (dist sts goal) = false ->
  Final sts.
Proof.
  intros HI HH Hperm Hmin Hfresh. split; [apply (inv_core HI)|].
  split; [now exists X|].
  intros es Hp.
  assert (Hcu : (c, goal) ∈ q) by (rewrite Hperm; constructor).
  destruct (inv_queue HI _ _ Hcu) as (dg & Hdg & _).
  pose proof (nonstale_cost _ _ _ _ Hdg Hfresh) as Hc.
  exists dg. split; [exact Hdg|].
  destruct (path_lower_bound X sts q HI es start_ goal 0%Q
              (proj1 (core_start (inv_core HI))) Hp)
    as [(d & Hd & Hle)|(c' & y & Hy & Hle)].
  - assert (d = dg) by congruence. subst d. lra.
  - pose proof (Hmin _ Hy) as Hcy. simpl in Hcy. lra.
Qed.

Lemma final_of_empty X sts : Inv X sts [] -> Hist X sts -> Final sts.
Proof.
  intros HI HH. split; [apply (inv_core HI)|]. split; [now exists X|].
  intros es Hp.
  destruct (path_lower_bound X sts [] HI es start_ goal 0%Q
              (proj1 (core_start (inv_core HI))) Hp)
    as [(d & Hd & Hle)|(c' & y & Hy & Hle)].
  - exists d. split; [exact Hd|lra].
  - inversion Hy.
Qed.

(** The loop is left, within [measure] iterations, in a final state. *)
Lemma search_loop_final fuel :
  forall X s,
    Inv X (states s) (queue_ s) ->
    Hist X (states s) ->
    measure X (queue_ s) <= fuel ->
    (iterations s + Z.of_nat (measure X (queue_ s)) < max_iterations_ pl)%Z ->
    exists s',
      search_loop pl g (nodeid (g !!! goal)) [] fuel s = Some (inr s') /\
      Final (states s') /\
      (iterations s' <= iterations s + Z.of_nat (measure X (queue_ s)))%Z.
Proof.
  induction fuel as [|fuel IH]; intros X s HI HH Hfuel Hmax.
  - destruct (queue_ s) as [|x l] eqn:Eq; [|simpl in Hfuel; unfold Invariants.measure in Hfuel; simpl in Hfuel; lia].
    exists s. simpl. rewrite Eq. simpl. split; [reflexivity|].
    split; [now apply (final_of_empty X)|lia].
  - destruct (queue_ s) as [|x l] eqn:Eq.
    { exists s. simpl. rewrite Eq. simpl. split; [reflexivity|].
      split; [now apply (final_of_empty X)|lia]. }
    cbn [search_loop]. rewrite Eq. cbn [getNextNode].
    destruct (pop_min x l) as [[c u] q1] eqn:Epop.
    destruct (pop_min_spec _ _ _ _ Epop) as [Hperm Hmin].
    assert (Hlenq : length (x :: l) = S (length q1)).
    { rewrite Hperm. reflexivity. }
    assert (Hcu : (c, u) ∈ x :: l) by (rewrite Hperm; constructor).
    destruct (inv_queue HI _ _ Hcu) as (du & Hdu & Hdule).
    assert (Hu : u < length g).
    { rewrite <- (core_len (inv_core HI)). exact (dist_finite_lt _ _ _ Hdu). }
    unfold Invariants.measure in Hfuel, Hmax. rewrite Hlenq in Hfuel, Hmax.
    replace (iterations s <? max_iterations_ pl)%Z with true
      by (symmetry; apply Z.ltb_lt; lia).
    cbn [negb]. fold (dist (states s) u).
    destruct (ecost_neq c (dist (states s) u)) eqn:Estale.
    { (* a stale element *)
      destruct (IH X {| states := states s; queue_ := q1;
                        traversal_cost_ := traversal_cost_ s;
                        iterations := iterations s + 1 |})
        as (s' & Hs' & HF & Hit).
      - simpl. eapply inv_pop; [exact HI|exact Hperm|right; exact Estale].
      - exact HH.
      - unfold Invariants.measure. simpl. lia.
      - unfold Invariants.measure. simpl. lia.
      - exists s'. split; [exact Hs'|]. split; [exact HF|].
        unfold Invariants.measure in Hit |- *. simpl in Hit. rewrite Hlenq. lia. }
    destruct (isGoal (nodeid (g !!! goal)) (g !!! u)) eqn:Egoal.
    { (* the goal is popped *)
      apply (isGoal_iff u Hu) in Egoal. subst u.
      eexists. split; [reflexivity|]. simpl. split.
      - eapply final_of_goal; [exact HI|exact HH|exact Hperm|exact Hmin|exact Estale].
      - unfold Invariants.measure. rewrite Hlenq. lia. }
    pose proof (nonstale_cost _ _ _ _ Hdu Estale) as Hc.
    assert (Hug : u <> goal).
    { intros ->. rewrite (proj2 (isGoal_iff goal Hgoal) eq_refl) in Egoal. discriminate. }
    pose proof (pop_exact X _ _ c u q1 du HI HH Hperm Hmin Hdu Hc Hug) as Hex.
    destruct (decide (u ∈ X)) as [HuX|HuX].
    { (* a node that was expanded before *)
      destruct (expand_relaxed u c Hu Hex (getEdges g u)
                  {| states := states s; queue_ := q1;
                     traversal_cost_ := traversal_cost_ s;
                     iterations := iterations s + 1 |})
        as (s2 & Hs2 & Hst & Hq & Hit2).
      - simpl. apply (inv_X HI u HuX).
      - simpl. exists du. auto.
      - auto.
      - rewrite Hs2. simpl in Hst, Hq, Hit2.
        destruct (IH X s2) as (s' & Hs' & HF & Hit).
        + rewrite Hst, Hq. eapply inv_pop; [exact HI|exact Hperm|left; exact HuX].
        + rewrite Hst. exact HH.
        + unfold Invariants.measure. rewrite Hq. lia.
        + unfold Invariants.measure. rewrite Hq, Hit2. lia.
        + exists s'. split; [exact Hs'|]. split; [exact HF|].
          unfold Invariants.measure in Hit |- *. rewrite Hq, Hit2 in Hit. rewrite Hlenq. lia. }
    (* a node that is expanded for the first time *)
    destruct (expand_inner X u c Hu Hex (getEdges g u) []
                {| states := states s; queue_ := q1;
                   traversal_cost_ := traversal_cost_ s;
                   iterations := iterations s + 1 |})
      as (s2 & Hs2 & HI2 & HH2 & Hq & Hit2).
    + simpl. eapply inner_of_inv; [exact HI|exact Hperm|exact Hmin|exact Hdu|exact Hc].
    + simpl. now apply hist_cons.
    + auto.
    + rewrite Hs2. simpl in HI2, Hq, Hit2.
      apply inv_of_inner in HI2.
      pose proof (pending_cons u X Hu HuX) as Hpend.
      unfold getEdges in Hq. fold (outdeg u) in Hq.
      destruct (IH (u :: X) s2) as (s' & Hs' & HF & Hit).
      * exact HI2.
      * exact HH2.
      * unfold Invariants.measure. lia.
      * unfold Invariants.measure. rewrite Hit2. lia.
      * exists s'. split; [exact Hs'|]. split; [exact HF|].
        unfold Invariants.measure in Hit |- *. rewrite Hit2 in Hit. rewrite Hlenq. lia.
Qed.

(** ** The set-up *)

Lemma reset_lookup v : resetSearchStates g !!! v = reset.
Proof.
  unfold resetSearchStates. change (List.map ?f ?l) with (f <$> l).
  rewrite list_lookup_total_alt, list_lookup_fmap.
  destruct (g !! v); reflexivity.
Qed.

Lemma setup_lookup q0 v :
  states (setup q0 g start_) !!! v =
    if decide (v = start_)
    then {| parent_edge := None; integrated_cost := Finite 0; traversal_cost := Infinite |}
    else reset.
Proof.
  simpl. destruct (decide (v = start_)) as [->|Hne].
  - apply list_lookup_total_insert_eq. unfold resetSearchStates.
    now rewrite length_map.
  - rewrite list_lookup_total_insert_ne by congruence. apply reset_lookup.
Qed.

Lemma inv_setup :
  Inv [] (states (setup [] g start_)) (queue_ (setup [] g start_)).
Proof.
  assert (Hd : forall v d, dist (states (setup [] g start_)) v = Finite d ->
                           v = start_ /\ d = 0%Q).
  { intros v d. unfold dist. rewrite setup_lookup.
    destruct (decide (v = start_)); [|discriminate]. simpl. now intros [= <-]. }
  constructor.
  - constructor.
    + simpl. unfold resetSearchStates. now rewrite length_insert, length_map.
    + unfold dist. rewrite setup_lookup, decide_True by reflexivity. auto.
    + intros v d H. apply Hd in H as [_ ->]. apply Qle_refl.
    + intros v e. rewrite setup_lookup. now destruct (decide (v = start_)).
    + intros v d H Hne. apply Hd in H as [-> _]. contradiction.
    + intros v d H. apply Hd in H as [-> ->]. exists []. split; reflexivity.
  - intros c v Hv. apply list_elem_of_singleton in Hv as [= -> ->].
    exists 0%Q. unfold dist. rewrite setup_lookup, decide_True by reflexivity.
    split; [reflexivity|apply Qle_refl].
  - intros x Hx. inversion Hx.
  - intros v d H. apply Hd in H as [-> ->]. left. constructor.
Qed.

Lemma hist_setup : Hist [] (states (setup [] g start_)).
Proof.
  constructor.
  - constructor.
  - intros x Hx. inversion Hx.
  - intros Hx. inversion Hx.
  - intros v e. rewrite setup_lookup. now destruct (decide (v = start_)).
  - intros X1 x X2 e HX. now destruct X1.
Qed.

(** ** Backtracking *)

Lemma backtrack_None fuel sts acc : backtrack fuel sts goal None acc = Some acc.
Proof. now destruct fuel. Qed.

(** The parent edges lead back to the start through nodes that were
    expanded earlier and earlier, along a path that costs no more than the
    cost recorded for the node they are followed from. *)
Lemma backtrack_path X sts :
  Core sts ->
  Hist X sts ->
  forall fuel v e acc dv X1 X2,
    parent_edge (sts !!! v) = Some e ->
    dist sts v = Finite dv ->
    X = X1 ++ start e :: X2 ->
    length X2 < fuel ->
    exists es,
      backtrack fuel sts goal (Some e) acc = Some (acc ++ es) /\
      is_path g start_ v (reverse es) /\
      (path_cost w (reverse es) <= dv)%Q.
Proof.
  intros HC HH. induction fuel as [|fuel IH]; intros v e acc dv X1 X2 Hpar Hdv HX Hlen;
    [lia|].
  destruct (core_par HC _ _ Hpar) as (Hin & Hend & d & d' & Hd & Hd' & Hsum).
  assert (d = dv) by congruence. subst d.
  assert (Hng : start e <> goal).
  { intros Heq. apply (hist_goal HH). rewrite <- Heq, HX.
    apply elem_of_app. right. constructor. }
  cbn [backtrack]. apply Nat.eqb_neq in Hng. rewrite Hng.
  assert (Hstep : is_path g (start e) v [e]).
  { simpl. auto. }
  destruct (parent_edge (sts !!! start e)) as [e'|] eqn:He'.
  - pose proof (hist_old HH X1 (start e) X2 e' HX He') as Hold.
    apply list_elem_of_split in Hold as (Y1 & Y2 & HY).
    destruct (IH (start e) e' (acc ++ [e]) d' (X1 ++ start e :: Y1) Y2 He' Hd')
      as (es & Hes & Hp & Hcost).
    + rewrite HX, HY, <- app_assoc. reflexivity.
    + rewrite HY, length_app in Hlen. simpl in Hlen. lia.
    + exists (e :: es). split; [now rewrite Hes, <- app_assoc|].
      rewrite reverse_cons. split; [now apply (is_path_app g _ (start e))|].
      rewrite path_cost_app. change (path_cost w [e]) with (w e + 0)%Q. lra.
  - assert (Hst : start e = start_).
    { destruct (decide (start e = start_)) as [Heq|Hne]; [exact Heq|].
      destruct (core_fin HC _ _ Hd' Hne) as [e' He'']. congruence. }
    rewrite backtrack_None.
    exists [e]. split; [reflexivity|]. split; [now rewrite <- Hst|].
    rewrite Hst, (proj1 (core_start HC)) in Hd'. injection Hd' as <-.
    change (path_cost w (reverse [e])) with (w e + 0)%Q. lra.
Qed.

Lemma hist_length X sts : Hist X sts -> length X <= length g.
Proof.
  intros HH. transitivity (length (seq 0 (length g))); [|now rewrite length_seq].
  apply submseteq_length, NoDup_submseteq; [exact (hist_nodup HH)|].
  intros x Hx. apply elem_of_seq. pose proof (hist_range HH x Hx). lia.
Qed.

(** The parent edge of a node, when the search has ended, is followed back
    to the start within as many steps as the graph has nodes. *)
Lemma backtrack_final sts fuel v e dv :
  Final sts ->
  parent_edge (sts !!! v) = Some e ->
  dist sts v = Finite dv ->
  length g <= fuel ->
  exists es,
    backtrack fuel sts goal (Some e) [] = Some es /\
    is_path g start_ v (reverse es) /\
    (path_cost w (reverse es) <= dv)%Q.
Proof.
  intros (HC & (X & HH) & _) Hpar Hdv Hfuel.
  pose proof (hist_par HH _ _ Hpar) as Hs.
  apply list_elem_of_split in Hs as (X1 & X2 & HX).
  pose proof (hist_length X sts HH) as Hlen.
  rewrite HX, length_app in Hlen. simpl in Hlen.
  destruct (backtrack_path X sts HC HH fuel v e [] dv X1 X2 Hpar Hdv HX)
    as (es & Hes & Hp & Hcost); [lia|].
  exists es. auto.
Qed.

(** ** The route *)

Lemma findRoute_shortest fuel :
  start_ <> goal ->
  (exists es, is_path g start_ goal es) ->
  (Z.of_nat (num_edges g) + 1 < max_iterations_ pl)%Z ->
  num_edges g + length g + 1 <= fuel ->
  exists route d,
    findRoute pl fuel [] g start_ goal [] = Some (inr route) /\
    start_node route = start_ /\
    is_path g start_ goal (edges route) /\
    route_cost route = Finite d /\
    (d == path_cost w (edges route))%Q /\
    forall es, is_path g start_ goal es -> (d <= path_cost w es)%Q.
Proof.
  intros Hne [es0 Hes0] Hmax Hfuel.
  destruct (search_loop_final fuel [] (setup [] g start_) inv_setup hist_setup)
    as (s' & Hloop & HFin & Hit).
  { unfold Invariants.measure. rewrite pending_nil. simpl. lia. }
  { unfold Invariants.measure. rewrite pending_nil. simpl. lia. }
  unfold Invariants.measure in Hit. rewrite pending_nil in Hit. simpl in Hit.
  pose proof HFin as (HC & _ & HF).
  destruct (HF es0 Hes0) as (d & Hd & _).
  destruct (core_fin HC goal d Hd (not_eq_sym Hne)) as [e He].
  destruct (backtrack_final (states s') fuel goal e d HFin He Hd)
    as (es & Hback & Hpath & Hcost); [lia|].
  exists {| start_node := start_; edges := reverse es;
            route_cost := integrated_cost (states s' !!! goal) |}, d.
  split; [|split; [reflexivity|split; [exact Hpath|split; [exact Hd|split]]]].
  - unfold findRoute. destruct g as [|n0 g'] eqn:Eg; [simpl in Hstart; lia|].
    rewrite <- Eg in *.
    replace (negb (start_ <? length g) || negb (goal <? length g)) with false.
    2:{ symmetry. apply orb_false_iff.
        split; apply negb_false_iff, Nat.ltb_lt; assumption. }
    unfold findShortestGraphTraversal. rewrite Hloop.
    replace (iterations s' >=? max_iterations_ pl)%Z with false.
    2:{ symmetry. rewrite Z.geb_leb. apply Z.leb_gt. lia. }
    rewrite He, Hback. reflexivity.
  - simpl. apply Qle_antisym; [|exact Hcost].
    destruct (HF _ Hpath) as (d2 & Hd2 & Hle). assert (d2 = d) by congruence.
    subst d2. exact Hle.
  - intros es1 Hes1. destruct (HF _ Hes1) as (d2 & Hd2 & Hle).
    assert (d2 = d) by congruence. subst d2. exact Hle.
Qed.


End Dijkstra.


(** ** A search longer than the largest bound *)

Section LongChain.
Import RoutePlanner Samples.

Lemma findRoute_nonempty pl fuel q0 g start_ goal blocked_ids :
  0 < length g ->
  findRoute pl fuel q0 g start_ goal blocked_ids =
    if negb (start_ <? length g) || negb (goal <? length g) then Some (inl OutOfRange)
    else
      match findShortestGraphTraversal pl fuel q0 g start_ goal blocked_ids with
      | None => None
      | Some (inl err) => Some (inl err)
      | Some (inr sts) =>
          match parent_edge (sts !!! goal) with
          | None => Some (inl NoValidRouteCouldBeFound)
          | Some e =>
              match backtrack fuel sts goal (Some e) [] with
              | None => None
              | Some es =>
                  Some (inr {| start_node := start_;
                               edges := reverse es;
                               route_cost := integrated_cost (sts !!! goal) |})
              end
          end
      end.
Proof. destruct g; [simpl; lia|reflexivity]. Qed.

Lemma chain_length n : length (chain n) = n.
Proof. unfold chain. now rewrite length_fmap, length_seq. Qed.

Lemma chain_lookup n k :
  k < n -> chain n !!! k = node k (if S k <? n then [edge k k (S k) 1] else []).
Proof.
  intros Hk. apply list_lookup_total_correct. unfold chain.
  rewrite list_lookup_fmap, lookup_seq_lt by exact Hk. reflexivity.
Qed.

Lemma chain_step N k fuel s :
  chain_state (S N) k s -> k < N -> (Z.of_nat k < INT_MAX)%Z ->
  exists s',
    search_loop (configure 0 no_plugins) (chain (S N)) (nodeid (chain (S N) !!! N)) []
      (S fuel) s =
    search_loop (configure 0 no_plugins) (chain (S N)) (nodeid (chain (S N) !!! N)) []
      fuel s' /\
    chain_state (S N) (S k) s'.
Proof.
  intros ((c & z & Hq & Hc & Hcz & Hz) & Hinf & Hlen & Hit) Hk Hmax.
  pose proof (add_one c z Hcz Hz) as Hadd.
  eexists. split.
  - cbn [search_loop]. rewrite Hq. cbn [getNextNode pop_min].
    replace (iterations s <? max_iterations_ (configure 0 no_plugins))%Z with true
      by (symmetry; apply Z.ltb_lt; rewrite Hit; exact Hmax).
    cbn [negb]. rewrite Hc. cbn [ecost_neq]. rewrite Qeq_bool_same. cbn [negb].
    unfold getEdges. rewrite !chain_lookup by lia.
    replace (isGoal (nodeid (node N _)) (node k _)) with false
      by (symmetry; apply Nat.eqb_neq; simpl; lia).
    replace (S k <? S N) with true by (symmetry; apply Nat.ltb_lt; lia).
    cbn [neighbors node expand traversal_cost_ states queue_ iterations].
    change (getTraversalCost (configure 0 no_plugins) (chain (S N)) _
              (edge k k (S k) 1) (traversal_cost_ s) [])
      with (@inr error _ (true, 1%Q)).
    cbv iota beta. change (end_ (edge k k (S k) 1)) with (S k).
    rewrite Hadd. rewrite (Hinf (S k)) by lia. cbn [ecost_lt]. reflexivity.
  - split; [|split; [|split]].
    + eexists. exists (Z.min (z + 1) (2 ^ 24)). split; [reflexivity|]. simpl.
      rewrite list_lookup_total_insert_eq by lia.
      split; [reflexivity|]. split; [reflexivity|lia].
    + intros j Hj. simpl. rewrite list_lookup_total_insert_ne by lia. apply Hinf. lia.
    + simpl. now rewrite length_insert.
    + simpl. lia.
Qed.

Lemma chain_runs N m :
  forall k s fuel,
    chain_state (S N) k s ->
    (Z.of_nat k + Z.of_nat m = INT_MAX)%Z ->
    k + m <= N ->
    m <= fuel ->
    exists s' c,
      search_loop (configure 0 no_plugins) (chain (S N)) (nodeid (chain (S N) !!! N)) []
        fuel s = Some (inr s') /\
      iterations s' = INT_MAX /\ queue_ s' = [(c, k + m)].
Proof.
  induction m as [|m IH]; intros k s fuel Hst Hsum Hle Hfuel.
  - destruct Hst as ((c & z & Hq & Hc & _) & Hinf & Hlen & Hit).
    exists s, c. rewrite Nat.add_0_r.
    split; [|split; [lia|exact Hq]].
    assert (Hge : (iterations s <? max_iterations_ (configure 0 no_plugins))%Z = false).
    { apply Z.ltb_ge. change (max_iterations_ _) with INT_MAX. lia. }
    destruct fuel; cbn [search_loop]; rewrite Hq; cbn [getNextNode pop_min];
      now rewrite Hge.
  - destruct fuel as [|fuel]; [lia|].
    destruct (chain_step N k fuel s Hst) as (s1 & Hstep & Hst1); [lia|lia|].
    rewrite Hstep.
    destruct (IH (S k) s1 fuel Hst1) as (s' & c & Hrun & Hit & Hq); [lia|lia|lia|].
    exists s', c. replace (k + S m) with (S k + m) by lia. auto.
Qed.

Lemma chain_setup N : chain_state (S N) 0 (setup [] (chain (S N)) 0).
Proof.
  assert (H0 : 0 < length (chain (S N))) by (rewrite chain_length; lia).
  split; [|split; [|split]].
  - exists 0%Q, 0%Z. split; [reflexivity|].
    rewrite (setup_lookup _ _ H0), decide_True by reflexivity.
    split; [reflexivity|]. split; [reflexivity|lia].
  - intros j Hj. rewrite (setup_lookup _ _ H0), decide_False by lia. reflexivity.
  - unfold setup, resetSearchStates. cbn [states].
    rewrite length_insert, length_map. apply chain_length.
  - reflexivity.
Qed.

(** C9 as stated fails on a search that needs 2147483648 iterations: on
    the chain 0 -> 1 -> ... -> 2147483647 the goal, the last node, is the
    only scheduled node when the bound of the "unbounded" configuration
    ends the loop, and the search is answered with the time-out. *)
Lemma C9_long_chain_times_out :
  max_iterations_ (configure 0 no_plugins) = INT_MAX /\
  (exists s' c,
     search_loop (configure 0 no_plugins) (chain (S (Z.to_nat INT_MAX)))
       (nodeid (chain (S (Z.to_nat INT_MAX)) !!! Z.to_nat INT_MAX)) []
       (Z.to_nat INT_MAX) (setup [] (chain (S (Z.to_nat INT_MAX))) 0) = Some (inr s') /\
     iterations s' = INT_MAX /\ queue_ s' = [(c, Z.to_nat INT_MAX)]) /\
  findRoute (configure 0 no_plugins) (Z.to_nat INT_MAX) []
    (chain (S (Z.to_nat INT_MAX))) 0 (Z.to_nat INT_MAX) [] = Some (inl TimedOut).
Proof.
  assert (HN : (Z.of_nat 0 + Z.of_nat (Z.to_nat INT_MAX) = INT_MAX)%Z).
  { rewrite Z2Nat.id; [reflexivity|discriminate]. }
  generalize dependent (Z.to_nat INT_MAX). intros N HN.
  destruct (chain_runs N N 0 _ N (chain_setup N) HN (le_n N) (le_n N))
    as (s' & c & Hrun & Hit & Hq).
  change (0 + N) with N in Hq.
  split; [reflexivity|]. split; [exists s', c; auto|].
  rewrite findRoute_nonempty by (rewrite chain_length; lia).
  replace (negb (0 <? length (chain (S N))) || negb (N <? length (chain (S N))))
    with false.
  2:{ rewrite chain_length. symmetry. apply orb_false_iff.
      split; apply negb_false_iff, Nat.ltb_lt; lia. }
  unfold findShortestGraphTraversal. rewrite Hrun, Hit. reflexivity.
Qed.

End LongChain.

Section ShortestRoute.
Import RoutePlanner Samples Paths.

(** Whole-number prices make the sums of the search exact as long as the
    sums stay within [2 ^ 24]. *)
Lemma path_cost_whole g w a b es :
  (forall e, edge_in g e -> exists z, (0 <= z)%Z /\ (w e == inject_Z z)%Q) ->
  is_path g a b es ->
  exists z, (0 <= z)%Z /\ (path_cost w es == inject_Z z)%Q.
Proof.
  intros Hw. revert a. induction es as [|e es IH]; intros a Hp.
  - exists 0%Z. split; [lia|reflexivity].
  - destruct Hp as (Hin & _ & Hrest).
    destruct (IH _ Hrest) as (z & Hz & Hcost). destruct (Hw e Hin) as (ze & Hze & Hwe).
    exists (ze + z)%Z. split; [lia|].
    change (path_cost w (e :: es)) with (w e + path_cost w es)%Q.
    rewrite inject_Z_plus, Hwe, Hcost. reflexivity.
Qed.

Lemma exact_sums_whole g w start_ goal :
  edges_stored g ->
  (forall e, edge_in g e -> exists z, (0 <= z)%Z /\ (w e == inject_Z z)%Q) ->
  (forall u c e,
     u <> goal -> cheapest g w start_ u c ->
     (forall es, is_path g start_ goal es -> (c <= path_cost w es)%Q) ->
     e ∈ neighbors (g !!! u) -> (c + w e <= 16777216)%Q) ->
  exact_sums g w start_ goal.
Proof.
  intros Hst Hw Hb u c e Hug Hc Hgoal He.
  pose proof (Hb u c e Hug Hc Hgoal He) as Hle.
  destruct Hc as [(es & Hes & Hcost) _].
  destruct (path_cost_whole g w _ _ es Hw Hes) as (zc & Hzc & Hpc).
  assert (Hin : edge_in g e).
  { destruct (decide (u < length g)) as [Hu|Hu].
    - exact (proj1 (neighbors_edge g Hst u e Hu He)).
    - rewrite list_lookup_total_alt, lookup_ge_None_2 in He by lia. inversion He. }
  destruct (Hw e Hin) as (ze & Hze & Hwe).
  apply (add_exact _ _ (zc + ze)).
  - rewrite inject_Z_plus, <- Hpc, Hcost, Hwe. reflexivity.
  - split; [lia|].
    assert (H : (inject_Z (zc + ze) <= inject_Z 16777216)%Q).
    { rewrite inject_Z_plus, <- Hpc, Hcost, <- Hwe. exact Hle. }
    rewrite <- Zle_Qle in H. exact H.
Qed.

(** C1, as the code has it.  Take a graph whose edges are stored in the
    node they start from and end inside the graph, with distinct node ids;
    a start and a goal in the graph that differ and are joined by a path;
    an empty blocked-id list and an empty schedule on entry; a pricing that
    accepts every edge at a price [w e] that is not negative (with no
    plugin loaded, or on an edge that is not overridable, [w e] is the
    static cost); sums that the float addition forms without rounding (the
    cost of a cheapest path to a node other than the goal and not farther
    than the goal, plus the price of an edge out of that node); and an
    iteration bound above the number of edges plus one.  Then [findRoute]
    returns a route: its edges form a path from the start to the goal, its
    [route_cost] is the sum of the prices of these edges, and no path from
    the start to the goal costs less. *)
Theorem C1_route_cost_is_minimal :
  forall pl g start_ goal w fuel,
    wf_graph g ->
    start_ < length g ->
    goal < length g ->
    start_ <> goal ->
    (forall e sc, edge_in g e ->
       getTraversalCost pl g (nodeid (g !!! goal)) e sc [] = inr (true, w e) /\
       (0 <= w e)%Q) ->
    exact_sums g w start_ goal ->
    (exists es, is_path g start_ goal es) ->
    (Z.of_nat (num_edges g) + 1 < max_iterations_ pl)%Z ->
    num_edges g + length g + 1 <= fuel ->
    exists route d,
      findRoute pl fuel [] g start_ goal [] = Some (inr route) /\
      start_node route = start_ /\
      is_path g start_ goal (edges route) /\
      route_cost route = Finite d /\
      (d == path_cost w (edges route))%Q /\
      forall es, is_path g start_ goal es -> (d <= path_cost w es)%Q.
Proof.
  intros pl g start_ goal w fuel Hwf Hs Hg Hne Hprice Hexact Hpath Hmax Hfuel.
  now apply findRoute_shortest.
Qed.

Lemma four_nodes_wf : wf_graph four_nodes.
Proof.
  split.
  - intros u n e Hn He.
    destruct u as [|[|[|[|u]]]]; simpl in Hn; try discriminate;
      injection Hn as <-; simpl in He;
      repeat (apply elem_of_cons in He as [->|He]; [simpl; lia|]);
      inversion He.
  - intros u v n m Hn Hm.
    destruct u as [|[|[|[|u]]]]; simpl in Hn; try discriminate; injection Hn as <-;
      destruct v as [|[|[|[|v]]]]; simpl in Hm; try discriminate; injection Hm as <-;
      simpl; intros H; congruence.
Qed.

Lemma four_nodes_edges e :
  edge_in four_nodes e ->
  e = edge 10 0 3 5 \/ e = edge 11 0 1 1 \/ e = edge 12 1 2 1 \/ e = edge 13 2 3 1.
Proof.
  intros (n & Hn & He).
  destruct (start e) as [|[|[|[|u]]]]; simpl in Hn; try discriminate;
    injection Hn as <-; simpl in He;
    repeat (apply elem_of_cons in He as [->|He]; [tauto|]);
    inversion He.
Qed.

Lemma four_nodes_prices goal_id_ e sc :
  edge_in four_nodes e ->
  getTraversalCost (configure 0 no_plugins) four_nodes goal_id_ e sc []
    = inr (true, Types.cost (edge_cost e)) /\
  (0 <= Types.cost (edge_cost e))%Q.
Proof.
  intros He. destruct (four_nodes_edges e He) as [-> | [-> | [-> | ->]]];
    (split; [reflexivity|discriminate]).
Qed.

Lemma four_nodes_whole e :
  edge_in four_nodes e ->
  exists z, (0 <= z)%Z /\ (Types.cost (edge_cost e) == inject_Z z)%Q.
Proof.
  intros He. destruct (four_nodes_edges e He) as [-> | [-> | [-> | ->]]];
    [exists 5%Z|exists 1%Z|exists 1%Z|exists 1%Z]; (split; [lia|reflexivity]).
Qed.

Lemma four_nodes_exact :
  exact_sums four_nodes (fun e => Types.cost (edge_cost e)) 0 3.
Proof.
  apply exact_sums_whole; [exact (proj1 four_nodes_wf)|exact four_nodes_whole|].
  intros u c e _ _ Hgoal He.
  assert (Hc : (c <= 5)%Q).
  { apply (Hgoal [edge 10 0 3 5]). simpl. split; [|split; reflexivity].
    eexists. split; [reflexivity|]. simpl. constructor. }
  assert (Hw : (Types.cost (edge_cost e) <= 5)%Q).
  { destruct u as [|[|[|[|u]]]]; simpl in He;
      repeat (apply elem_of_cons in He as [->|He]; [simpl; lra|]);
      inversion He. }
  lra.
Qed.

Lemma C1_route_cost_is_minimal_witness :
  exists route d,
    findRoute (configure 0 no_plugins) 20 [] four_nodes 0 3 [] = Some (inr route) /\
    start_node route = 0 /\
    is_path four_nodes 0 3 (edges route) /\
    route_cost route = Finite d /\
    (d == path_cost (fun e => Types.cost (edge_cost e)) (edges route))%Q /\
    forall es, is_path four_nodes 0 3 es ->
               (d <= path_cost (fun e => Types.cost (edge_cost e)) es)%Q.
Proof.
  apply (C1_route_cost_is_minimal (configure 0 no_plugins) four_nodes 0 3
           (fun e => Types.cost (edge_cost e)) 20).
  - exact four_nodes_wf.
  - simpl. lia.
  - simpl. lia.
  - discriminate.
  - exact (four_nodes_prices _).
  - exact four_nodes_exact.
  - exists [edge 10 0 3 5]. simpl. split; [|split; reflexivity].
    exists (node 0 [edge 10 0 3 5; edge 11 0 1 1]). split; [reflexivity|].
    simpl. constructor.
  - reflexivity.
  - simpl. lia.
Defined.

End ShortestRoute.

(** ** The shape of every returned route *)

Section RouteShape.
Import RoutePlanner Paths.

Variables (pl : Planner) (g : Graph) (start_ goal : NodePtr) (blocked_ids : list nat).
Hypothesis Hwf : edges_stored g.
Hypothesis Hstart : start_ < length g.









End RouteShape.

Section RouteShapeTheorem.
Import RoutePlanner Samples Paths.



End RouteShapeTheorem.

(** ** Searches that end without a route *)

Section NoRoute.
Import RoutePlanner Samples Paths.

(** X2.  A request whose goal is its start, made with an empty schedule on
    entry, finds no route: the start is popped first and is the goal, no
    parent edge was written, and the answer is an error, the time-out
    under a bound of one or less. *)
Theorem findRoute_start_is_goal pl g start_ blocked_ids fuel :
  start_ < length g ->
  1 <= fuel ->
  findRoute pl fuel [] g start_ start_ blocked_ids =
    Some (inl (if (max_iterations_ pl <=? 1)%Z then TimedOut
               else NoValidRouteCouldBeFound)).
Proof.
  intros Hs Hfuel. rewrite findRoute_nonempty by lia.
  replace (start_ <? length g) with true by (symmetry; now apply Nat.ltb_lt).
  cbn [negb orb]. unfold findShortestGraphTraversal.
  destruct fuel as [|fuel]; [lia|].
  cbn [search_loop setup queue_ addNode getNextNode pop_min iterations states].
  destruct (0 <? max_iterations_ pl)%Z eqn:E0; cbn [negb].
  - rewrite list_lookup_total_insert_eq
      by (unfold resetSearchStates; now rewrite length_map).
    cbn [integrated_cost]. unfold ecost_neq at 1. rewrite Qeq_bool_same. cbn [negb].
    unfold isGoal. rewrite Nat.eqb_refl. cbn [iterations states].
    rewrite Z.geb_leb. change (0 + 1)%Z with 1%Z.
    destruct (max_iterations_ pl <=? 1)%Z; [reflexivity|].
    rewrite list_lookup_total_insert_eq
      by (unfold resetSearchStates; now rewrite length_map).
    reflexivity.
  - change (iterations (setup [] g start_)) with 0%Z. apply Z.ltb_ge in E0.
    replace (0 >=? max_iterations_ pl)%Z with true
      by (symmetry; rewrite Z.geb_leb; apply Z.leb_le; lia).
    replace (max_iterations_ pl <=? 1)%Z with true
      by (symmetry; apply Z.leb_le; lia).
    reflexivity.
Qed.

Lemma findRoute_start_is_goal_witness :
  findRoute (configure 0 no_plugins) 5 [] four_nodes 0 0 [] =
    Some (inl NoValidRouteCouldBeFound).
Proof.
  apply (findRoute_start_is_goal (configure 0 no_plugins) four_nodes 0 [] 5);
    simpl; lia.
Defined.

(** X3.  A bound that is not positive stops the loop before its first
    iteration: [configure] keeps a negative parameter as it is, and every
    request on a graph that holds its start and its goal times out. *)
Theorem negative_bound_times_out m scorer g start_ goal blocked_ids fuel q0 :
  (to_int m < 0)%Z ->
  start_ < length g ->
  goal < length g ->
  findRoute (configure m scorer) fuel q0 g start_ goal blocked_ids
    = Some (inl TimedOut).
Proof.
  intros Hm Hs Hg. rewrite findRoute_nonempty by lia.
  replace (start_ <? length g) with true by (symmetry; now apply Nat.ltb_lt).
  replace (goal <? length g) with true by (symmetry; now apply Nat.ltb_lt).
  cbn [negb orb]. unfold findShortestGraphTraversal.
  assert (Hmax : (max_iterations_ (configure m scorer) < 0)%Z).
  { unfold configure. cbn [max_iterations_].
    replace (to_int m =? 0)%Z with false by (symmetry; apply Z.eqb_neq; lia).
    exact Hm. }
  assert (Hloop : search_loop (configure m scorer) g (nodeid (g !!! goal))
                    blocked_ids fuel (setup q0 g start_)
                  = Some (inr (setup q0 g start_))).
  { destruct fuel; cbn [search_loop setup queue_ addNode getNextNode iterations];
      destruct (pop_min (0%Q, start_) q0) as [[c n] q'];
      replace (0 <? max_iterations_ (configure m scorer))%Z with false
        by (symmetry; apply Z.ltb_ge; lia); reflexivity. }
  rewrite Hloop. cbn [setup iterations].
  replace (0 >=? max_iterations_ (configure m scorer))%Z with true
    by (symmetry; rewrite Z.geb_leb; apply Z.leb_le; lia).
  reflexivity.
Qed.

Lemma negative_bound_times_out_witness :
  findRoute (configure (-1) no_plugins) 20 [] four_nodes 0 3 [] = Some (inl TimedOut).
Proof.
  apply (negative_bound_times_out (-1) no_plugins four_nodes 0 3 [] 20 []).
  - reflexivity.
  - simpl. lia.
  - simpl. lia.
Defined.

End NoRoute.

(** ** A goal that no path reaches *)

Section Unreachable.
Import RoutePlanner Samples Paths.





End Unreachable.

(** ** What the search reads of the blocked-id list *)

Section BlockedIds.
Import RoutePlanner Samples Paths.

Variables (pl : Planner) (g : Graph) (goal_id_ : nat).

Lemma expand_same_prices b b' curr_cost es :
  (forall e sc, e ∈ es ->
     getTraversalCost pl g goal_id_ e sc b = getTraversalCost pl g goal_id_ e sc b') ->
  forall s, expand pl g goal_id_ b curr_cost es s = expand pl g goal_id_ b' curr_cost es s.
Proof.
  induction es as [|e es IH]; intros H s; simpl; [reflexivity|].
  rewrite (H e (traversal_cost_ s)) by constructor.
  assert (H' : forall e' sc, e' ∈ es ->
            getTraversalCost pl g goal_id_ e' sc b = getTraversalCost pl g goal_id_ e' sc b').
  { intros e' sc He'. apply H. now constructor. }
  destruct (getTraversalCost _ _ _ _ _ _) as [err|[[] tc]]; [reflexivity| |].
  - destruct (Float32.add _ _) as [p|]; [destruct (ecost_lt _ _)|]; now apply IH.
  - now apply IH.
Qed.

(** Two blocked-id lists that price every edge of the graph alike give the
    same search. *)
Lemma search_loop_same_prices b b' fuel :
  (forall n e sc, e ∈ getEdges g n ->
     getTraversalCost pl g goal_id_ e sc b = getTraversalCost pl g goal_id_ e sc b') ->
  forall s, search_loop pl g goal_id_ b fuel s = search_loop pl g goal_id_ b' fuel s.
Proof.
  intros H. induction fuel as [|fuel IH]; intros s; simpl; [reflexivity|].
  destruct (getNextNode _) as [[[c n] q']|]; [|reflexivity].
  destruct (negb _); [reflexivity|].
  destruct (ecost_neq _ _); [apply IH|].
  destruct (isGoal _ _); [reflexivity|].
  rewrite (expand_same_prices b b') by (intros e sc He; exact (H n e sc He)).
  destruct (expand _ _ _ _ _ _ _); [reflexivity|apply IH].
Qed.

Lemma getTraversalCost_same_blocked e sc b b' :
  (blocked g e b <-> blocked g e b') ->
  getTraversalCost pl g goal_id_ e sc b = getTraversalCost pl g goal_id_ e sc b'.
Proof.
  intros H. unfold getTraversalCost.
  assert (Hb : bool_decide (List.find (idBlocked g e) b <> None)
             = bool_decide (List.find (idBlocked g e) b' <> None)).
  { apply bool_decide_ext. now rewrite !find_idBlocked. }
  now rewrite Hb.
Qed.

End BlockedIds.

Section BlockedIdsRoute.
Import RoutePlanner Samples Paths.

Lemma findRoute_same_prices pl g start_ goal b b' fuel q0 :
  (forall n e sc, e ∈ getEdges g n ->
     getTraversalCost pl g (nodeid (g !!! goal)) e sc b
     = getTraversalCost pl g (nodeid (g !!! goal)) e sc b') ->
  findRoute pl fuel q0 g start_ goal b = findRoute pl fuel q0 g start_ goal b'.
Proof.
  intros H. unfold findRoute, findShortestGraphTraversal.
  now rewrite (search_loop_same_prices pl g _ b b' fuel H).
Qed.

(** X5.  The search reads the blocked-id list as a set: two lists with the
    same members, in whatever order and however often repeated, give the
    same result. *)
Theorem findRoute_blocked_ids_as_set pl g start_ goal b b' fuel q0 :
  (forall id, id ∈ b <-> id ∈ b') ->
  findRoute pl fuel q0 g start_ goal b = findRoute pl fuel q0 g start_ goal b'.
Proof.
  intros H. apply findRoute_same_prices. intros n e sc _.
  apply getTraversalCost_same_blocked. unfold blocked. now rewrite !H.
Qed.

Lemma findRoute_blocked_ids_as_set_witness :
  findRoute (configure 0 no_plugins) 20 [] four_nodes 0 3 [12; 10; 12]
  = findRoute (configure 0 no_plugins) 20 [] four_nodes 0 3 [10; 12].
Proof.
  apply (findRoute_blocked_ids_as_set (configure 0 no_plugins) four_nodes 0 3
           [12; 10; 12] [10; 12] 20 []).
  intros id. rewrite !elem_of_cons. intuition.
Defined.

(** X6.  The id of the goal node in the blocked-id list changes nothing,
    as long as no edge of the graph carries the same number as its edge
    id: the veto spares every edge that ends in the goal. *)
Theorem findRoute_goal_id_not_blocked pl g start_ goal b fuel q0 :
  (forall n e, e ∈ neighbors (g !!! n) -> edgeid e <> nodeid (g !!! goal)) ->
  findRoute pl fuel q0 g start_ goal (nodeid (g !!! goal) :: b)
  = findRoute pl fuel q0 g start_ goal b.
Proof.
  intros H. apply findRoute_same_prices. intros n e sc He.
  specialize (H n e He). unfold getTraversalCost. cbn [List.find].
  destruct (idBlocked g e (nodeid (g !!! goal))) eqn:Eb; [|reflexivity].
  unfold idBlocked in Eb. apply orb_true_iff in Eb as [Eb|Eb];
    apply Nat.eqb_eq in Eb; [congruence|].
  unfold isGoal. rewrite <- Eb, Nat.eqb_refl. cbn [negb].
  now rewrite !andb_false_r.
Qed.

Lemma findRoute_goal_id_not_blocked_witness :
  findRoute (configure 0 no_plugins) 20 [] four_nodes 0 3 [3; 11]
  = findRoute (configure 0 no_plugins) 20 [] four_nodes 0 3 [11].
Proof.
  apply (findRoute_goal_id_not_blocked (configure 0 no_plugins) four_nodes 0 3 [11] 20 []).
  intros n e He.
  destruct n as [|[|[|[|n]]]]; simpl in He;
    repeat (apply elem_of_cons in He as [->|He]; [simpl; lia|]);
    inversion He.
Defined.

End BlockedIdsRoute.

(** ** The errors of a request *)

Section Errors.
Import RoutePlanner Samples Paths.

(** The walk over the edges of a node does not end at an edge that is
    refused or not taken: an edge without a usable cost raises its
    exception wherever it stands in the list. *)
Lemma expand_zero_cost pl g goal_id_ blocked_ids curr_cost es e :
  e ∈ es ->
  static_priced pl e ->
  ~ vetoed g goal_id_ e blocked_ids ->
  (Types.cost (edge_cost e) == 0)%Q ->
  forall s, expand pl g goal_id_ blocked_ids curr_cost es s = inl NoValidGraph.
Proof.
  intros He Hst Hv Hz. induction es as [|e' es IH]; intros s; [inversion He|].
  cbn [expand].
  destruct (getTraversalCost pl g goal_id_ e' (traversal_cost_ s) blocked_ids)
    as [err|[[] tc]] eqn:E.
  - now rewrite (getTraversalCost_error _ _ _ _ _ _ _ E).
  - apply elem_of_cons in He as [->|He].
    + rewrite (getTraversalCost_static _ _ _ _ _ _ Hst Hv) in E.
      apply Qeq_bool_iff in Hz. rewrite Hz in E. discriminate.
    + destruct (Float32.add _ _) as [p|]; [destruct (ecost_lt _ _)|]; now apply IH.
  - apply elem_of_cons in He as [->|He].
    + rewrite (getTraversalCost_static _ _ _ _ _ _ Hst Hv) in E.
      apply Qeq_bool_iff in Hz. rewrite Hz in E. discriminate.
    + now apply IH.
Qed.

(** X7.  An edge out of the start node that is priced by its static cost,
    is not withheld by the blocked ids and costs zero makes the request
    fail with [NoValidGraph], whether or not the edge leads towards the
    goal, provided the start is not the goal and the bound lets the first
    iteration run. *)
Theorem findRoute_zero_cost_edge pl g start_ goal blocked_ids fuel e :
  start_ < length g ->
  goal < length g ->
  nodeid (g !!! start_) <> nodeid (g !!! goal) ->
  (0 < max_iterations_ pl)%Z ->
  1 <= fuel ->
  e ∈ neighbors (g !!! start_) ->
  static_priced pl e ->
  ~ vetoed g (nodeid (g !!! goal)) e blocked_ids ->
  (Types.cost (edge_cost e) == 0)%Q ->
  findRoute pl fuel [] g start_ goal blocked_ids = Some (inl NoValidGraph).
Proof.
  intros Hs Hg Hne Hmax Hfuel He Hst Hv Hz.
  rewrite findRoute_nonempty by lia.
  replace (start_ <? length g) with true by (symmetry; now apply Nat.ltb_lt).
  replace (goal <? length g) with true by (symmetry; now apply Nat.ltb_lt).
  cbn [negb orb]. unfold findShortestGraphTraversal.
  destruct fuel as [|fuel]; [lia|].
  cbn [search_loop setup queue_ addNode getNextNode pop_min iterations states].
  replace (0 <? max_iterations_ pl)%Z with true by (symmetry; now apply Z.ltb_lt).
  cbn [negb].
  rewrite list_lookup_total_insert_eq
    by (unfold resetSearchStates; now rewrite length_map).
  cbn [integrated_cost]. unfold ecost_neq at 1. rewrite Qeq_bool_same. cbn [negb].
  replace (isGoal (nodeid (g !!! goal)) (g !!! start_)) with false
    by (symmetry; now apply Nat.eqb_neq).
  now rewrite (expand_zero_cost pl g _ blocked_ids 0 _ e He Hst Hv Hz).
Qed.

(** Node 0 has an edge of cost 0 to node 2, off the way to the goal 1. *)
Lemma findRoute_zero_cost_edge_witness :
  findRoute (configure 0 no_plugins) 5 []
    [node 0 [edge 10 0 1 1; edge 11 0 2 0]; node 1 []; node 2 []] 0 1 []
  = Some (inl NoValidGraph).
Proof.
  apply (findRoute_zero_cost_edge (configure 0 no_plugins)
           [node 0 [edge 10 0 1 1; edge 11 0 2 0]; node 1 []; node 2 []]
           0 1 [] 5 (edge 11 0 2 0)).
  - simpl. lia.
  - simpl. lia.
  - simpl. lia.
  - reflexivity.
  - lia.
  - simpl. apply elem_of_cons. right. apply elem_of_cons. now left.
  - left. reflexivity.
  - intros [[H|H] _]; inversion H.
  - reflexivity.
Defined.

Lemma getTraversalCost_priced pl g goal_id_ blocked_ids e sc :
  (static_priced pl e -> ~ (Types.cost (edge_cost e) == 0)%Q) ->
  exists r, getTraversalCost pl g goal_id_ e sc blocked_ids = inr r.
Proof.
  intros H. unfold getTraversalCost.
  destruct (bool_decide _ && negb _); [eauto|].
  destruct (negb (overridable (edge_cost e))) eqn:Eo; cbn [orb].
  - destruct (Qeq_bool _ _) eqn:Ez; [|eauto].
    exfalso. apply Qeq_bool_iff in Ez. apply H; [|exact Ez].
    left. now apply negb_true_iff in Eo.
  - destruct (numPlugins (edge_scorer_ pl) =? 0)%Z eqn:En; [|eauto].
    destruct (Qeq_bool _ _) eqn:Ez; [|eauto].
    exfalso. apply Qeq_bool_iff in Ez. apply H; [|exact Ez].
    right. now apply Z.eqb_eq in En.
Qed.

Lemma expand_priced pl g goal_id_ blocked_ids curr_cost es :
  (forall e, e ∈ es -> static_priced pl e -> ~ (Types.cost (edge_cost e) == 0)%Q) ->
  forall s, exists s', expand pl g goal_id_ blocked_ids curr_cost es s = inr s'.
Proof.
  induction es as [|e es IH]; intros H s; cbn [expand]; [eauto|].
  destruct (getTraversalCost_priced pl g goal_id_ blocked_ids e (traversal_cost_ s))
    as [[[] tc] ->]; [apply H; constructor| |].
  - destruct (Float32.add _ _) as [p|]; [destruct (ecost_lt _ _)|];
      apply IH; intros e' He'; apply H; now constructor.
  - apply IH. intros e' He'. apply H. now constructor.
Qed.

Lemma search_loop_priced pl g goal_id_ blocked_ids fuel :
  (forall n e, e ∈ neighbors (g !!! n) -> static_priced pl e ->
     ~ (Types.cost (edge_cost e) == 0)%Q) ->
  forall s err, search_loop pl g goal_id_ blocked_ids fuel s <> Some (inl err).
Proof.
  intros H. induction fuel as [|fuel IH]; intros s err; simpl.
  - destruct (getNextNode _) as [[[c n] q']|]; [|discriminate].
    destruct (negb _); discriminate.
  - destruct (getNextNode _) as [[[c n] q']|]; [|discriminate].
    destruct (negb _); [discriminate|].
    destruct (ecost_neq _ _); [apply IH|].
    destruct (isGoal _ _); [discriminate|].
    match goal with
    | |- context [expand ?a ?b ?c ?d ?e ?f ?s0] =>
        destruct (expand_priced a b c d e f (H n) s0) as [s2 ->]
    end.
    apply IH.
Qed.

(** X8.  [NoValidGraph] is kept for the empty graph and for edges without
    a usable cost: on a graph that is not empty and in which no edge priced
    by its static cost costs zero, no request ends with it. *)
Theorem findRoute_valid_graph pl g start_ goal blocked_ids fuel q0 :
  g <> [] ->
  (forall n e, e ∈ neighbors (g !!! n) -> static_priced pl e ->
     ~ (Types.cost (edge_cost e) == 0)%Q) ->
  findRoute pl fuel q0 g start_ goal blocked_ids <> Some (inl NoValidGraph).
Proof.
  intros Hg H. rewrite findRoute_nonempty by (destruct g; [congruence|simpl; lia]).
  destruct (negb _ || negb _); [discriminate|].
  unfold findShortestGraphTraversal.
  destruct (search_loop _ _ _ _ _ _) as [[err|s]|] eqn:E; [| |discriminate].
  - exfalso. exact (search_loop_priced pl g _ blocked_ids fuel H _ _ E).
  - destruct (_ >=? _)%Z; [discriminate|].
    destruct (parent_edge _); [|discriminate].
    destruct (backtrack _ _ _ _ _); discriminate.
Qed.

Lemma findRoute_valid_graph_witness :
  findRoute (configure 0 no_plugins) 20 [] four_nodes 0 3 [] <> Some (inl NoValidGraph).
Proof.
  apply (findRoute_valid_graph (configure 0 no_plugins) four_nodes 0 3 [] 20 []).
  - discriminate.
  - intros n e He _.
    destruct n as [|[|[|[|n]]]]; simpl in He;
      repeat (apply elem_of_cons in He as [->|He]; [simpl; intros Hq; discriminate|]);
      inversion He.
Defined.

(** X9.  [OutOfRange], the exception of [graph.at], is raised by the two
    look-ups of [findRoute] alone: a request ends with it exactly when the
    graph is not empty and the start or the goal is no index of it. *)
Theorem findRoute_out_of_range pl g start_ goal blocked_ids fuel q0 :
  findRoute pl fuel q0 g start_ goal blocked_ids = Some (inl OutOfRange) <->
  g <> [] /\ (length g <= start_ \/ length g <= goal).
Proof.
  destruct g as [|n0 g'] eqn:Eg; [simpl; split; [discriminate|intros [[] _]; reflexivity]|].
  rewrite <- Eg. assert (Hlen : 0 < length g) by (rewrite Eg; simpl; lia).
  rewrite findRoute_nonempty by exact Hlen.
  destruct (Nat.ltb_spec start_ (length g)) as [Hs|Hs];
    destruct (Nat.ltb_spec goal (length g)) as [Hg|Hg]; cbn [negb orb];
    try (split; [intros _; split; [congruence|lia]|reflexivity]).
  split; [|intros [_ [H|H]]; lia].
  unfold findShortestGraphTraversal.
  destruct (search_loop _ _ _ _ _ _) as [[err|s]|] eqn:E; [| |discriminate].
  - apply search_loop_error in E. subst err. discriminate.
  - destruct (_ >=? _)%Z; [discriminate|].
    destruct (parent_edge _); [|discriminate].
    destruct (backtrack _ _ _ _ _); discriminate.
Qed.

(** X10.  The counter of the loop moves up only and stops at the bound:
    when the loop is left, the counter is not below its value on entry and
    not above the larger of that value and [max_iterations_]. *)
Theorem search_loop_counter pl g goal_id_ blocked_ids fuel :
  forall s s',
    search_loop pl g goal_id_ blocked_ids fuel s = Some (inr s') ->
    (iterations s <= iterations s')%Z /\
    (iterations s' <= Z.max (iterations s) (max_iterations_ pl))%Z.
Proof.
  induction fuel as [|fuel IH]; intros s s'; simpl.
  - destruct (getNextNode _) as [[[c n] q']|]; [|intros [= <-]; lia].
    destruct (negb _); [intros [= <-]; lia|discriminate].
  - destruct (getNextNode _) as [[[c n] q']|]; [|intros [= <-]; lia].
    destruct (Z.ltb_spec (iterations s) (max_iterations_ pl)) as [Hlt|Hge];
      cbn [negb]; [|intros [= <-]; lia].
    destruct (ecost_neq _ _).
    { intros H. apply IH in H. simpl in H. lia. }
    destruct (isGoal _ _); [intros [= <-]; simpl; lia|].
    destruct (expand _ _ _ _ _ _ _) as [err|s2] eqn:E; [discriminate|].
    apply expand_iterations in E. simpl in E.
    intros H. apply IH in H. lia.
Qed.

(** A bound of two on the four-node graph: the loop is left after two
    iterations, with nodes still scheduled. *)
Lemma search_loop_counter_witness :
  exists s',
    search_loop (configure 2 no_plugins) four_nodes 3 [] 20 (setup [] four_nodes 0)
      = Some (inr s') /\
    queue_ s' <> [] /\
    (iterations (setup [] four_nodes 0) <= iterations s')%Z /\
    (iterations s' <= Z.max (iterations (setup [] four_nodes 0))
                        (max_iterations_ (configure 2 no_plugins)))%Z.
Proof.
  eexists. split; [reflexivity|]. split; [discriminate|].
  apply (search_loop_counter (configure 2 no_plugins) four_nodes 3 [] 20
           (setup [] four_nodes 0)).
  reflexivity.
Defined.

End Errors.

(** ** Requests to the closure and penalty scorer *)

Section AdjustEdgesRequests.
Import AdjustEdgesScorer.

(** X11.  A request handled twice in a row leaves the scorer as the first
    handling left it. *)
Theorem closedEdgesCb_idempotent (sc : Scorer) (request : Request) :
  fst (closedEdgesCb (fst (closedEdgesCb sc request)) request)
  = fst (closedEdgesCb sc request).
Proof.
  unfold closedEdgesCb. cbn [fst closed_edges_ dynamic_penalties_]. f_equal.
  - apply set_eq. intros id.
    rewrite !closed_after_erase, !closed_after_insert, !closed_after_erase,
      !closed_after_insert. tauto.
  - apply map_eq. intros id. rewrite !penalties_after_upsert.
    now destruct (last_adjust id (adjust_edges request)).
Qed.

(** X12.  Closing a list of edges and then opening the same list, in two
    requests without adjustments, gives the scorer back as it was, when
    none of these edges was closed before. *)
Theorem close_then_open_restores (sc : Scorer) (l : list nat) :
  (forall id, id ∈ l -> id ∉ closed_edges_ sc) ->
  fst (closedEdgesCb
         (fst (closedEdgesCb sc
                 {| closed_edges := l; opened_edges := []; adjust_edges := [] |}))
         {| closed_edges := []; opened_edges := l; adjust_edges := [] |})
  = sc.
Proof.
  intros H. destruct sc as [cl pen]. unfold closedEdgesCb.
  cbn [fst closed_edges_ dynamic_penalties_ closed_edges opened_edges adjust_edges foldl].
  f_equal. apply set_eq. intros id.
  rewrite closed_after_erase, closed_after_insert.
  specialize (H id). cbn [closed_edges_] in H. tauto.
Qed.

Lemma close_then_open_restores_witness :
  fst (closedEdgesCb
         (fst (closedEdgesCb {| closed_edges_ := {[7]}; dynamic_penalties_ := {[3 := 2%Q]} |}
                 {| closed_edges := [3; 4]; opened_edges := []; adjust_edges := [] |}))
         {| closed_edges := []; opened_edges := [3; 4]; adjust_edges := [] |})
  = {| closed_edges_ := {[7]}; dynamic_penalties_ := {[3 := 2%Q]} |}.
Proof.
  apply (close_then_open_restores
           {| closed_edges_ := {[7]}; dynamic_penalties_ := {[3 := 2%Q]} |} [3; 4]).
  intros id Hid. cbn [closed_edges_].
  apply elem_of_cons in Hid as [->|Hid]; [set_solver|].
  apply elem_of_cons in Hid as [->|Hid]; [set_solver|].
  inversion Hid.
Defined.

(** X13.  No request takes a penalty away: an edge that has an entry in
    the penalty map has one after every request. *)
Theorem penalty_is_never_removed (sc : Scorer) (request : Request) (id : nat) :
  is_Some (dynamic_penalties_ sc !! id) ->
  is_Some (dynamic_penalties_ (fst (closedEdgesCb sc request)) !! id).
Proof.
  intros [v Hv]. unfold closedEdgesCb. cbn [fst dynamic_penalties_].
  rewrite penalties_after_upsert, Hv.
  destruct (last_adjust id (adjust_edges request)); eauto.
Qed.

Lemma penalty_is_never_removed_witness :
  is_Some (dynamic_penalties_
             (fst (closedEdgesCb
                     {| closed_edges_ := ∅; dynamic_penalties_ := {[3 := 2%Q]} |}
                     {| closed_edges := [3]; opened_edges := [3];
                        adjust_edges := [Msg.mkEdgeCost 4 1%Q] |})) !! 3).
Proof.
  apply (penalty_is_never_removed
           {| closed_edges_ := ∅; dynamic_penalties_ := {[3 := 2%Q]} |}
           {| closed_edges := [3]; opened_edges := [3];
              adjust_edges := [Msg.mkEdgeCost 4 1%Q] |} 3).
  cbn [dynamic_penalties_]. rewrite lookup_singleton_eq. eauto.
Defined.

End AdjustEdgesRequests.

(** ** The walk of the costmap scorer along an edge *)

Section CostmapWalk.
Import CostmapScorer CostmapSamples.

Lemma sample_None sc p w :
  sample sc p w = None <->
  invalid_on_collision_ sc = true /\ ~ (max_cost_ sc == 255)%Q /\ (max_cost_ sc <= p)%Q.
Proof.
  unfold sample.
  destruct (Qle_bool (max_cost_ sc) p) eqn:E1; cbn [andb].
  2:{ apply Qle_bool_false in E1. split; [discriminate|].
      intros (_ & _ & H). exfalso. exact (Qlt_not_le _ _ E1 H). }
  apply Qle_bool_iff in E1.
  destruct (Qeq_bool (max_cost_ sc) 255) eqn:E2; cbn [andb negb].
  { apply Qeq_bool_iff in E2. split; [discriminate|]. intros (_ & H & _). contradiction. }
  apply Qeq_bool_false in E2.
  destruct (invalid_on_collision_ sc).
  - split; [auto|reflexivity].
  - split; [discriminate|]. intros (H & _). discriminate.
Qed.

Lemma walk_None sc cm cells :
  forall w,
    walk sc cm cells w = None <->
    invalid_on_collision_ sc = true /\ ~ (max_cost_ sc == 255)%Q /\
    exists p, p ∈ samples cm cells /\ (max_cost_ sc <= p)%Q.
Proof.
  induction cells as [|[cx cy] rest IH]; intros w; cbn [walk].
  - split; [discriminate|]. intros (_ & _ & p & Hp & _). inversion Hp.
  - unfold samples. cbn [List.map fst snd]. fold (samples cm rest).
    destruct (sample sc _ w) as [w'|] eqn:E.
    + rewrite IH. split.
      * intros (H1 & H2 & p & Hp & Hle). split; [exact H1|]. split; [exact H2|].
        exists p. split; [now constructor|exact Hle].
      * intros (H1 & H2 & p & Hp & Hle). split; [exact H1|]. split; [exact H2|].
        apply elem_of_cons in Hp as [->|Hp]; [|eauto].
        exfalso. assert (Hn : sample sc (inject_Z (Z.of_nat (getCost cm cx cy))) w = None)
          by (apply sample_None; auto).
        congruence.
    + apply sample_None in E as (H1 & H2 & H3). split; [intros _|reflexivity].
      split; [exact H1|]. split; [exact H2|].
      eexists. split; [constructor|exact H3].
Qed.

(** X14.  When the costmap scorer refuses an edge.  With no costmap
    received the edge is refused; with an end point off the map it is
    refused exactly when [invalid_off_map_] is set; with both end points
    on the map it is refused exactly when [invalid_on_collision_] is set,
    [max_cost_] is not 255 and a sample of the line is [max_cost_] or
    more.  A refused edge leaves the cost of the caller as it was. *)
Theorem score_refused_iff (sc : Scorer) (feed : option Costmap2D) (g : Graph)
    (edge : DirectionalEdge) (c : Q) :
  (fst (score (prepare sc feed) g edge c) = false <->
   match feed with
   | None => True
   | Some cm =>
       match worldToMap cm (x (coords (g !!! start edge))) (y (coords (g !!! start edge))),
             worldToMap cm (x (coords (g !!! end_ edge))) (y (coords (g !!! end_ edge))) with
       | Some (x0, y0), Some (x1, y1) =>
           invalid_on_collision_ sc = true /\ ~ (max_cost_ sc == 255)%Q /\
           exists p, p ∈ samples cm (LineIterator cm x0 y0 x1 y1) /\ (max_cost_ sc <= p)%Q
       | _, _ => invalid_off_map_ sc = true
       end
   end) /\
  (fst (score (prepare sc feed) g edge c) = false ->
   score (prepare sc feed) g edge c = (false, c)).
Proof.
  unfold score, prepare. cbn [costmap_ invalid_off_map_ use_max_ weight_ max_cost_].
  destruct feed as [cm|]; [|split; [tauto|reflexivity]].
  destruct (worldToMap cm (x (coords (g !!! start edge))) _) as [[x0 y0]|].
  2:{ destruct (invalid_off_map_ sc); cbn [fst]; split;
        [tauto|reflexivity|split; [discriminate|congruence]|discriminate]. }
  destruct (worldToMap cm (x (coords (g !!! end_ edge))) _) as [[x1 y1]|].
  2:{ destruct (invalid_off_map_ sc); cbn [fst]; split;
        [tauto|reflexivity|split; [discriminate|congruence]|discriminate]. }
  match goal with
  | |- context [walk ?s ?m ?l ?w0] =>
      pose proof (walk_None s m l w0) as HN; destruct (walk s m l w0) as [w|]
  end.
  - cbn [invalid_on_collision_ max_cost_] in HN.
    destruct (use_max_ sc); cbn [fst]; (split; [|discriminate]);
      (split; [discriminate|]); intros H; apply HN in H; discriminate.
  - cbn [invalid_on_collision_ max_cost_] in HN. cbn [fst].
    split; [|reflexivity]. split; [intros _; now apply HN|reflexivity].
Qed.

(** What the walk has gathered when it reaches the end of the line. *)
Lemma walk_gathers sc cm cells :
  forall w w',
    walk sc cm cells w = Some w' ->
    idx w' = idx w + length cells /\
    (running_cost w' == running_cost w + foldr Qplus 0 (samples cm cells))%Q /\
    (largest_cost w <= largest_cost w')%Q /\
    (forall p, p ∈ samples cm cells -> ~ (p == 255)%Q -> (p <= largest_cost w')%Q) /\
    (largest_cost w' = largest_cost w \/
     exists p, p ∈ samples cm cells /\ ~ (p == 255)%Q /\ largest_cost w' = p).
Proof.
  induction cells as [|[cx cy] rest IH]; intros w w'; cbn [walk].
  - intros [= <-]. cbn [samples List.map foldr length].
    split; [lia|]. split; [lra|]. split; [lra|]. split; [|now left].
    intros p Hp. inversion Hp.
  - unfold samples. cbn [List.map fst snd foldr length]. fold (samples cm rest).
    set (p0 := inject_Z (Z.of_nat (getCost cm cx cy))).
    unfold sample.
    destruct (Qle_bool _ _ && negb _ && _); [discriminate|].
    intros H. apply IH in H. cbn [idx running_cost largest_cost] in H.
    destruct H as (H1 & H2 & H3 & H4 & H5).
    split; [lia|]. split; [rewrite H2; lra|].
    destruct (Qeq_bool p0 255) eqn:E255;
      [apply Qeq_bool_iff in E255|apply Qeq_bool_false in E255];
      (destruct (Qlt_bool (largest_cost w) p0) eqn:El;
       [apply Qlt_bool_iff in El|apply Qlt_bool_false in El]);
      cbn [andb negb] in *.
    + split; [exact H3|]. split.
      * intros p Hp Hn. apply elem_of_cons in Hp as [->|Hp]; [contradiction|auto].
      * destruct H5 as [H5|(p & Hp & Hn & H5)]; [now left|].
        right. exists p. split; [now constructor|auto].
    + split; [exact H3|]. split.
      * intros p Hp Hn. apply elem_of_cons in Hp as [->|Hp]; [contradiction|auto].
      * destruct H5 as [H5|(p & Hp & Hn & H5)]; [now left|].
        right. exists p. split; [now constructor|auto].
    + split; [lra|]. split.
      * intros p Hp Hn. apply elem_of_cons in Hp as [->|Hp]; [exact H3|auto].
      * right. destruct H5 as [H5|(p & Hp & Hn & H5)].
        -- exists p0. split; [constructor|auto].
        -- exists p. split; [now constructor|auto].
    + split; [exact H3|]. split.
      * intros p Hp Hn. apply elem_of_cons in Hp as [->|Hp]; [lra|auto].
      * destruct H5 as [H5|(p & Hp & Hn & H5)]; [now left|].
        right. exists p. split; [now constructor|auto].
Qed.



(** With the collision test armed, every sample of a completed walk is
    below [max_cost_]. *)
Lemma walk_below_max sc cm cells w w' :
  invalid_on_collision_ sc = true ->
  ~ (max_cost_ sc == 255)%Q ->
  walk sc cm cells w = Some w' ->
  forall p, p ∈ samples cm cells -> (p < max_cost_ sc)%Q.
Proof.
  intros Hc Hm Hw p Hp. apply Qnot_le_lt. intros Hle.
  assert (HN : walk sc cm cells w = None)
    by (apply walk_None; split; [exact Hc|split; [exact Hm|eauto]]).
  congruence.
Qed.

Lemma sum_below (l : list Q) (m : Q) :
  (forall p, p ∈ l -> (p <= m)%Q) ->
  (foldr Qplus 0 l <= inject_Z (Z.of_nat (length l)) * m)%Q.
Proof.
  induction l as [|p l IH]; intros H.
  - cbn [foldr length]. change (inject_Z (Z.of_nat 0)) with 0%Q. lra.
  - cbn [foldr length]. rewrite Nat2Z.inj_succ, <- Z.add_1_r, inject_Z_plus.
    assert (Hp : (p <= m)%Q) by (apply H; constructor).
    assert (Hl : (foldr Qplus 0 l <= inject_Z (Z.of_nat (length l)) * m)%Q).
    { apply IH. intros q Hq. apply H. now constructor. }
    change (inject_Z 1) with 1%Q.
    set (a := inject_Z (Z.of_nat (length l))) in *.
    assert (Heq : ((a + 1) * m == a * m + m)%Q) by ring.
    rewrite Heq. lra.
Qed.

Lemma samples_nonneg cm cells p : p ∈ samples cm cells -> (0 <= p)%Q.
Proof.
  unfold samples. intros H. apply list_elem_of_In, in_map_iff in H as (c & <- & _).
  change 0%Q with (inject_Z 0). rewrite <- Zle_Qle. lia.
Qed.

Lemma sum_nonneg (l : list Q) :
  (forall p, p ∈ l -> (0 <= p)%Q) -> (0 <= foldr Qplus 0 l)%Q.
Proof.
  induction l as [|p l IH]; intros H; cbn [foldr]; [lra|].
  assert (0 <= p)%Q by (apply H; constructor).
  assert (0 <= foldr Qplus 0 l)%Q by (apply IH; intros q Hq; apply H; now constructor).
  lra.
Qed.

Lemma Qdiv_between (a b wt : Q) :
  (0 <= wt)%Q -> (0 <= a)%Q -> (a <= b)%Q -> (0 < b)%Q ->
  (0 <= wt * a / b)%Q /\ (wt * a / b <= wt)%Q.
Proof.
  intros Hw Ha Hab Hb. split.
  - apply Qle_shift_div_l; [exact Hb|]. rewrite Qmult_0_l. now apply Qmult_le_0_compat.
  - apply Qle_shift_div_r; [exact Hb|]. apply Qmult_le_compat_nonneg; split; lra.
Qed.

(** X16.  The cost of an accepted edge is normalised.  With the collision
    test armed, a positive [max_cost_] other than 255 and a weight that is
    not negative, an edge with both end points on the map that the scorer
    accepts gets a cost between zero and the weight, the maximum and the
    mean alike (the mean on a line of at least one cell). *)
Theorem score_normalised (sc : Scorer) (cm : Costmap2D) (g : Graph)
    (edge : DirectionalEdge) (c c' : Q) (x0 y0 x1 y1 : nat) :
  worldToMap cm (x (coords (g !!! start edge))) (y (coords (g !!! start edge)))
    = Some (x0, y0) ->
  worldToMap cm (x (coords (g !!! end_ edge))) (y (coords (g !!! end_ edge)))
    = Some (x1, y1) ->
  invalid_on_collision_ sc = true ->
  ~ (max_cost_ sc == 255)%Q ->
  (0 < max_cost_ sc)%Q ->
  (0 <= weight_ sc)%Q ->
  (use_max_ sc = false -> LineIterator cm x0 y0 x1 y1 <> []) ->
  score (prepare sc (Some cm)) g edge c = (true, c') ->
  (0 <= c')%Q /\ (c' <= weight_ sc)%Q.
Proof.
  intros Hs He Hc Hm Hpos Hwt Hline. unfold score, prepare.
  cbn [costmap_ invalid_off_map_ use_max_ weight_ max_cost_]. rewrite Hs, He.
  match goal with
  | |- context [walk ?s ?m ?l ?w0] => destruct (walk s m l w0) as [w|] eqn:Ew
  end; [|discriminate].
  assert (Hlt : forall p, p ∈ samples cm (LineIterator cm x0 y0 x1 y1) ->
                          (p < max_cost_ sc)%Q).
  { intros p Hp.
    refine (walk_below_max _ cm _ _ w _ _ Ew p Hp); [exact Hc|exact Hm]. }
  apply walk_gathers in Ew as (Hidx & Hrun & Hl0 & _ & Hl).
  cbn [idx running_cost largest_cost] in Hidx, Hrun, Hl0, Hl.
  rewrite Nat.add_0_l in Hidx. rewrite Qplus_0_l in Hrun.
  destruct (use_max_ sc) eqn:Eu; intros [= <-].
  - apply Qdiv_between; [exact Hwt|exact Hl0| |exact Hpos].
    destruct Hl as [->|(p & Hp & _ & ->)]; [lra|].
    apply Qlt_le_weak. now apply Hlt.
  - specialize (Hline eq_refl).
    set (l := LineIterator cm x0 y0 x1 y1) in *.
    assert (Hn : (0 < inject_Z (Z.of_nat (idx w)))%Q).
    { change 0%Q with (inject_Z 0). rewrite <- Zlt_Qlt, Hidx.
      destruct l; [congruence|simpl; lia]. }
    apply Qdiv_between; [exact Hwt| | |].
    + rewrite Hrun. apply sum_nonneg. intros p Hp. exact (samples_nonneg _ _ _ Hp).
    + rewrite Hrun, Hidx.
      replace (length l) with (length (samples cm l))
        by (unfold samples; apply length_map).
      apply sum_below. intros p Hp. apply Qlt_le_weak. now apply Hlt.
    + now apply Qmult_lt_0_compat.
Qed.

(** The mean over the cells 0 and 255 under a [max_cost_] of 256. *)
Lemma score_normalised_witness :
  exists c',
    score (prepare {| use_max_ := false; invalid_on_collision_ := true;
                      invalid_off_map_ := true; max_cost_ := 256; weight_ := 2;
                      costmap_ := None |} (Some two_cells)) graph edge01 7
      = (true, c') /\
    (0 <= c')%Q /\ (c' <= 2)%Q.
Proof.
  eexists. split; [reflexivity|].
  apply (score_normalised
           {| use_max_ := false; invalid_on_collision_ := true;
              invalid_off_map_ := true; max_cost_ := 256; weight_ := 2;
              costmap_ := None |} two_cells graph edge01 7 _ 0 0 1 0).
  - reflexivity.
  - reflexivity.
  - reflexivity.
  - discriminate.
  - reflexivity.
  - discriminate.
  - discriminate.
  - reflexivity.
Defined.

End CostmapWalk.
